(** * A shallow embedding of [splitText] (fetta, src/app/split-text)

    The TypeScript module measures the characters of a text container,
    rebuilds it as character / word / line spans, compensates kerning and
    groups words into lines; with [autoSplit] it re-splits on resize.

    Modelling conventions.
    - A grapheme (one segment of [Intl.Segmenter]) is its list of code
      points ([list Z]); a text node is the list of its graphemes, as the
      segmenter returns them.
    - Numbers read from layout ([getBoundingClientRect], [fontSize]) are
      rationals [Q]; the host's measurements are oracles passed as
      functions, each called once per measurement the code performs.
    - DOM elements created by the code carry a numeric identity taken
      from a counter; arrays of elements are lists of these records. *)

From Stdlib Require Import String ZArith QArith Qabs Qround List Bool Lia Lqa.
Import ListNotations.

Open Scope Z_scope.

(** ** Data model *)

Definition grapheme := list Z.

(** [MeasuredChar] and [MeasuredWord] *)
Record MeasuredChar := { mc_char : grapheme; mc_left : Q }.

Record MeasuredWord := {
  mw_chars : list MeasuredChar;
  mw_startLeft : Q;
  mw_noSpaceBefore : bool }.

(** [grapheme === " " || grapheme === "\n" || grapheme === "\t"] *)
Definition is_boundary (g : grapheme) : bool :=
  match g with
  | [c] => (c =? 32) || (c =? 10) || (c =? 9)
  | _ => false
  end.

(** [BREAK_CHARS = new Set(["—", "–"])]: U+2014 and U+2013. *)
Definition is_break_char (g : grapheme) : bool :=
  match g with
  | [c] => (c =? 8212) || (c =? 8211)
  | _ => false
  end.

(** ** [measureOriginalText]

    The closure state of the function: [words] (kept reversed),
    [currentWord] (kept reversed), [wordStartLeft] and
    [noSpaceBeforeNext]. *)
Record MState := {
  ms_words : list MeasuredWord;
  ms_current : list MeasuredChar;
  ms_startLeft : option Q;
  ms_noSpaceNext : bool }.

Definition ms_init : MState :=
  {| ms_words := []; ms_current := []; ms_startLeft := None;
     ms_noSpaceNext := false |}.

(** [pushWord]: does nothing (and keeps [noSpaceBeforeNext]) when the
    current word is empty. *)
Definition pushWord (s : MState) : MState :=
  match ms_current s with
  | [] => s
  | _ :: _ =>
      {| ms_words :=
           {| mw_chars := rev (ms_current s);
              mw_startLeft := match ms_startLeft s with
                              | Some l => l | None => 0%Q end;
              mw_noSpaceBefore := ms_noSpaceNext s |} :: ms_words s;
         ms_current := []; ms_startLeft := None; ms_noSpaceNext := false |}
  end.

(** One iteration of [for (const grapheme of graphemes)]; [left] is the
    [rect.left] of the range covering this grapheme. *)
Definition measure_step (s : MState) (g : grapheme) (left : Q) : MState :=
  if is_boundary g then pushWord s
  else
    let s1 := {| ms_words := ms_words s;
                 ms_current := {| mc_char := g; mc_left := left |}
                                 :: ms_current s;
                 ms_startLeft := match ms_startLeft s with
                                 | Some l => Some l | None => Some left end;
                 ms_noSpaceNext := ms_noSpaceNext s |} in
    if is_break_char g then
      let s2 := pushWord s1 in
      {| ms_words := ms_words s2; ms_current := ms_current s2;
         ms_startLeft := ms_startLeft s2; ms_noSpaceNext := true |}
    else s1.

(** The tree walker visits the text nodes in document order and the
    closure state survives from one node to the next, so the walk is a
    fold over the graphemes of all nodes in order; [rect i] is the left
    edge of the [i]-th grapheme of that sequence. *)
Fixpoint measure_from (rect : nat -> Q) (i : nat) (gs : list grapheme)
    (s : MState) : MState :=
  match gs with
  | [] => s
  | g :: gs' => measure_from rect (S i) gs' (measure_step s g (rect i))
  end.

Definition measureOriginalText (rect : nat -> Q)
    (nodes : list (list grapheme)) : list MeasuredWord :=
  rev (ms_words (pushWord (measure_from rect 0 (concat nodes) ms_init))).

(** ** Spans *)

Record CharSpan := {
  cs_id : nat;
  cs_index : nat;
  cs_text : grapheme;
  cs_expectedGap : option Q;
  cs_marginLeft : option Q }.

Record WordSpan := {
  ws_id : nat;
  ws_index : nat;
  ws_chars : list CharSpan }.

(** A child of a line span (or of the container after STEP 3). *)
Inductive Node := NWord (w : WordSpan) | NSpace.

Record LineSpan := {
  ls_id : nat;
  ls_index : nat;
  ls_children : list Node }.

(** STEP 2, inner loop: the char spans of one word.  [prev] is the
    measured left of the previous character, [None] for [charIndex = 0]. *)
Fixpoint build_chars (next ci : nat) (prev : option Q)
    (mcs : list MeasuredChar) : list CharSpan :=
  match mcs with
  | [] => []
  | mc :: mcs' =>
      {| cs_id := next; cs_index := ci; cs_text := mc_char mc;
         cs_expectedGap := match prev with
                           | Some p => Some (mc_left mc - p)%Q
                           | None => None end;
         cs_marginLeft := None |}
        :: build_chars (S next) (S ci) (Some (mc_left mc)) mcs'
  end.

(** STEP 2: the word span is created first, then its char spans. *)
Definition build_word (next wi : nat) (mw : MeasuredWord) : WordSpan :=
  {| ws_id := next; ws_index := wi;
     ws_chars := build_chars (S next) 0 None (mw_chars mw) |}.

Fixpoint build_words (next wi : nat) (mws : list MeasuredWord)
    : list WordSpan * nat :=
  match mws with
  | [] => ([], next)
  | mw :: mws' =>
      let (ws, n) := build_words (next + S (length (mw_chars mw))) (S wi) mws' in
      (build_word next wi mw :: ws, n)
  end.

(** ** STEP 4: kerning compensation *)

(** [Math.round]: the nearest integer, halves rounded up. *)
Definition math_round (x : Q) : Z := Qfloor (x + (1 # 2)).

(** [Math.round(delta * 100) / 100] *)
Definition round2 (d : Q) : Q := inject_Z (math_round (d * 100)) / 100.

Definition Qltb (a b : Q) : bool := negb (Qle_bool b a).

(** The [for (let i = 1; ...)] loop; [positions] were all measured before
    the loop, [prevPos] is [positions[i - 1]]. *)
Fixpoint compensate_from (prevPos : Q) (cs : list CharSpan)
    (positions : list Q) : list CharSpan :=
  match cs, positions with
  | c :: cs', p :: ps' =>
      let c' :=
        match cs_expectedGap c with
        | Some originalGap =>
            let delta := (originalGap - (p - prevPos))%Q in
            {| cs_id := cs_id c; cs_index := cs_index c; cs_text := cs_text c;
               cs_expectedGap := None;
               cs_marginLeft := if Qltb (Qabs delta) 20
                                then Some (round2 delta)
                                else cs_marginLeft c |}
        | None => c
        end in
      c' :: compensate_from p cs' ps'
  | _, _ => cs
  end.

(** One word of STEP 4: [chars.length < 2] returns early; otherwise
    [positions = chars.map(c => c.getBoundingClientRect().left)], read
    here from [left ci]. *)
Definition compensate_word (left : nat -> Q) (w : WordSpan) : WordSpan :=
  match ws_chars w with
  | c0 :: (_ :: _) as rest =>
      let positions := map left (seq 0 (length (ws_chars w))) in
      {| ws_id := ws_id w; ws_index := ws_index w;
         ws_chars := c0 :: compensate_from (hd 0%Q positions) rest (tl positions) |}
  | _ => w
  end.

(** ** STEP 3: the word layer *)

(** [noSpaceBeforeSet] holds span identities. *)
Definition in_set (set : list nat) (w : WordSpan) : bool :=
  existsb (Nat.eqb (ws_id w)) set.

(** Append each word, then a space unless it is the last one or the next
    word is in [noSpaceBeforeSet]. *)
Fixpoint layer_with_spaces (set : list nat) (ws : list WordSpan) : list Node :=
  match ws with
  | [] => []
  | [w] => [NWord w]
  | w :: ((w' :: _) as rest) =>
      NWord w :: (if in_set set w' then [] else [NSpace])
              ++ layer_with_spaces set rest
  end.

(** ** STEP 5: line detection *)

Definition Qmaxb (a b : Q) : Q := if Qle_bool a b then b else a.

(** [Math.max(5, fontSize * 0.3)] *)
Definition tolerance (fontSize : Q) : Q := Qmaxb 5 (fontSize * (3 # 10)).

(** The [allWords.forEach] loop: its state is [lineGroups] (reversed),
    [currentLine] (reversed) and [currentY]; [top w] is [rect.top]. *)
Fixpoint group_lines (tol : Q) (top : WordSpan -> Q)
    (groups : list (list WordSpan)) (cur : list WordSpan) (curY : option Z)
    (ws : list WordSpan) : list (list WordSpan) :=
  match ws with
  | [] => rev (match cur with [] => groups | _ => rev cur :: groups end)
  | w :: ws' =>
      let wordY := math_round (top w) in
      match curY with
      | None => group_lines tol top groups (w :: cur) (Some wordY) ws'
      | Some y =>
          if Qltb (inject_Z (Z.abs (wordY - y))) tol
          then group_lines tol top groups (w :: cur) curY ws'
          else group_lines tol top (rev cur :: groups) [w] (Some wordY) ws'
      end
  end.

Definition detect_lines (fontSize : Q) (top : WordSpan -> Q)
    (ws : list WordSpan) : list (list WordSpan) :=
  group_lines (tolerance fontSize) top [] [] None ws.

(** STEP 6: one line span per group. *)
Fixpoint build_lines (set : list nat) (next li : nat)
    (groups : list (list WordSpan)) : list LineSpan :=
  match groups with
  | [] => []
  | g :: gs =>
      {| ls_id := next; ls_index := li;
         ls_children := layer_with_spaces set g |}
        :: build_lines set (S next) (S li) gs
  end.

(** ** [performSplit] *)

(** What the host reports while one split runs: [lay_rect i], the left of
    the [i]-th original grapheme (read by [measureOriginalText]);
    [lay_char_left wi ci], the left of char [ci] of word [wi] when STEP 4
    measures that word; [lay_word_top wi], the top of word [wi] in STEP 5;
    and the container's computed font size. *)
Record Layout := {
  lay_rect : nat -> Q;
  lay_char_left : nat -> nat -> Q;
  lay_word_top : nat -> Q;
  lay_font_size : Q }.

Record SplitOut := {
  ps_chars : list CharSpan;
  ps_words : list WordSpan;
  ps_lines : list LineSpan;
  ps_wordLayer : list Node;
  ps_next : nat }.

Definition noSpaceBeforeSet (mws : list MeasuredWord) (ws : list WordSpan)
    : list nat :=
  map (fun p => ws_id (snd p))
      (filter (fun p => mw_noSpaceBefore (fst p)) (combine mws ws)).

Definition performSplit (lay : Layout) (next : nat) (mws : list MeasuredWord)
    : SplitOut :=
  let (built, n) := build_words next 0 mws in
  let set := noSpaceBeforeSet mws built in
  let wordLayer := layer_with_spaces set built in
  let allWords :=
    map (fun w => compensate_word (lay_char_left lay (ws_index w)) w) built in
  let groups :=
    detect_lines (lay_font_size lay) (fun w => lay_word_top lay (ws_index w))
                 allWords in
  let lines := build_lines set n 0 groups in
  {| ps_chars := flat_map ws_chars allWords;
     ps_words := allWords;
     ps_lines := lines;
     ps_wordLayer := wordLayer;
     ps_next := n + length lines |}.

(** ** [splitText] *)

(** [String.prototype.trim] removes WhiteSpace and LineTerminator code
    points at both ends. *)
Definition js_ws (c : Z) : bool :=
  existsb (Z.eqb c)
    [9; 10; 11; 12; 13; 32; 160; 5760; 8192; 8193; 8194; 8195; 8196; 8197;
     8198; 8199; 8200; 8201; 8202; 8232; 8233; 8239; 8287; 12288; 65279].

Fixpoint drop_ws (l : list Z) : list Z :=
  match l with
  | c :: l' => if js_ws c then drop_ws l' else l
  | [] => []
  end.

Definition js_trim (l : list Z) : list Z := rev (drop_ws (rev (drop_ws l))).

(** [element.textContent]: the text of all text nodes in order. *)
Definition textContent (nodes : list (list grapheme)) : list Z :=
  concat (concat nodes).

(** The container's children.  [COrig] is the markup saved in
    [originalHTML] (assigning it to [innerHTML] recreates its text
    nodes); [CSplit] is what [performSplit] leaves: the line spans. *)
Inductive Content :=
  | COrig (nodes : list (list grapheme))
  | CSplit (lines : list LineSpan).

(** The text nodes the tree walker of [measureOriginalText] visits: in
    split markup, one per char span and one per inserted space. *)
Definition node_text_nodes (n : Node) : list (list grapheme) :=
  match n with
  | NWord w => map (fun c => [cs_text c]) (ws_chars w)
  | NSpace => [[[32]]]
  end.

Definition text_nodes (c : Content) : list (list grapheme) :=
  match c with
  | COrig ns => ns
  | CSplit ls => flat_map (fun l => flat_map node_text_nodes (ls_children l)) ls
  end.

(** The argument [element]: an [HTMLElement] has text nodes and maybe a
    parent, whose [offsetWidth] is given. *)
Inductive Container :=
  | NotHTMLElement
  | HTMLElement (nodes : list (list grapheme)) (parentWidth : option Z).

Inductive RevertOnComplete := RNone | RPromise | RNotPromise.

Record Options := {
  opt_type : option string;
  opt_autoSplit : bool;
  opt_onResize : bool;
  opt_revertOnComplete : RevertOnComplete }.

Definition default_options : Options :=
  {| opt_type := None; opt_autoSplit := false; opt_onResize := false;
     opt_revertOnComplete := RNone |}.

Definition default_type : string := "chars,words,lines".

(** [type = 'chars,words,lines'] in the destructuring. *)
Definition effective_type (o : Options) : string :=
  match opt_type o with Some t => t | None => default_type end.

Inductive Warning :=
  | WNoText
  | WAutoSplitNeedsParent
  | WTypeNotImplemented (t : string)
  | WAutoSplitNoParentFound
  | WNotPromise
  | WPromiseRejected.

Inductive SplitError :=
  | ErrNotHTMLElement   (* the [throw] of the validation *)
  | ErrNoSegmenter.     (* [new Intl.Segmenter] where it does not exist *)

(** The host: whether [Intl.Segmenter] exists, the
    [prefers-reduced-motion] media query, and the layout of the [k]-th
    split ([0] is the initial one). *)
Record Host := {
  host_segmenter : bool;
  host_reducedMotion : bool;
  host_layout : nat -> Layout }.

(** The closure state shared by [revert], [dispose], the observer, the
    debounce timer and the animation-frame callbacks, together with the
    container and the clock.  [st_timer] is the deadline of the pending
    [setTimeout(handleResize, 200)]; [st_raf] counts pending
    [requestAnimationFrame] callbacks; [st_width] is the parent's current
    [offsetWidth]. *)
Record St := {
  st_original : list (list grapheme);   (* originalHTML *)
  st_content : Content;
  st_aria : option (list Z);
  st_active : bool;                     (* isActive *)
  st_observer : bool;                   (* resizeObserver !== null *)
  st_timer : option nat;                (* debounceTimer *)
  st_lastWidth : option Z;              (* lastWidth *)
  st_skipFirst : bool;                  (* skipFirst *)
  st_width : Z;
  st_now : nat;
  st_raf : nat;
  st_chars : list CharSpan;             (* currentChars *)
  st_words : list WordSpan;             (* currentWords *)
  st_lines : list LineSpan;             (* currentLines *)
  st_next : nat;
  st_resplits : nat;
  st_resizeCalls : list (list CharSpan * list WordSpan * list LineSpan);
  st_log : list Warning }.

(** The returned object: the three arrays as they were when [splitText]
    returned; [res_live] is [false] for the early return whose [revert]
    and [dispose] are [() => {}]. *)
Record SplitResult := {
  res_chars : list CharSpan;
  res_words : list WordSpan;
  res_lines : list LineSpan;
  res_prefersReducedMotion : bool;
  res_live : bool }.

(** Field updates of [St] (assignments to the closure variables). *)
Definition set_content (v : Content) (s : St) : St :=
  {| st_original := st_original s; st_content := v; st_aria := st_aria s;
     st_active := st_active s; st_observer := st_observer s;
     st_timer := st_timer s; st_lastWidth := st_lastWidth s;
     st_skipFirst := st_skipFirst s; st_width := st_width s;
     st_now := st_now s; st_raf := st_raf s; st_chars := st_chars s;
     st_words := st_words s; st_lines := st_lines s; st_next := st_next s;
     st_resplits := st_resplits s; st_resizeCalls := st_resizeCalls s;
     st_log := st_log s |}.
Definition set_aria (v : option (list Z)) (s : St) : St :=
  {| st_original := st_original s; st_content := st_content s; st_aria := v;
     st_active := st_active s; st_observer := st_observer s;
     st_timer := st_timer s; st_lastWidth := st_lastWidth s;
     st_skipFirst := st_skipFirst s; st_width := st_width s;
     st_now := st_now s; st_raf := st_raf s; st_chars := st_chars s;
     st_words := st_words s; st_lines := st_lines s; st_next := st_next s;
     st_resplits := st_resplits s; st_resizeCalls := st_resizeCalls s;
     st_log := st_log s |}.
Definition set_active (v : bool) (s : St) : St :=
  {| st_original := st_original s; st_content := st_content s;
     st_aria := st_aria s; st_active := v; st_observer := st_observer s;
     st_timer := st_timer s; st_lastWidth := st_lastWidth s;
     st_skipFirst := st_skipFirst s; st_width := st_width s;
     st_now := st_now s; st_raf := st_raf s; st_chars := st_chars s;
     st_words := st_words s; st_lines := st_lines s; st_next := st_next s;
     st_resplits := st_resplits s; st_resizeCalls := st_resizeCalls s;
     st_log := st_log s |}.
Definition set_observer (v : bool) (s : St) : St :=
  {| st_original := st_original s; st_content := st_content s;
     st_aria := st_aria s; st_active := st_active s; st_observer := v;
     st_timer := st_timer s; st_lastWidth := st_lastWidth s;
     st_skipFirst := st_skipFirst s; st_width := st_width s;
     st_now := st_now s; st_raf := st_raf s; st_chars := st_chars s;
     st_words := st_words s; st_lines := st_lines s; st_next := st_next s;
     st_resplits := st_resplits s; st_resizeCalls := st_resizeCalls s;
     st_log := st_log s |}.
Definition set_timer (v : option nat) (s : St) : St :=
  {| st_original := st_original s; st_content := st_content s;
     st_aria := st_aria s; st_active := st_active s;
     st_observer := st_observer s; st_timer := v;
     st_lastWidth := st_lastWidth s; st_skipFirst := st_skipFirst s;
     st_width := st_width s; st_now := st_now s; st_raf := st_raf s;
     st_chars := st_chars s; st_words := st_words s; st_lines := st_lines s;
     st_next := st_next s; st_resplits := st_resplits s;
     st_resizeCalls := st_resizeCalls s; st_log := st_log s |}.
Definition set_lastWidth (v : option Z) (s : St) : St :=
  {| st_original := st_original s; st_content := st_content s;
     st_aria := st_aria s; st_active := st_active s;
     st_observer := st_observer s; st_timer := st_timer s;
     st_lastWidth := v; st_skipFirst := st_skipFirst s;
     st_width := st_width s; st_now := st_now s; st_raf := st_raf s;
     st_chars := st_chars s; st_words := st_words s; st_lines := st_lines s;
     st_next := st_next s; st_resplits := st_resplits s;
     st_resizeCalls := st_resizeCalls s; st_log := st_log s |}.
Definition set_skipFirst (v : bool) (s : St) : St :=
  {| st_original := st_original s; st_content := st_content s;
     st_aria := st_aria s; st_active := st_active s;
     st_observer := st_observer s; st_timer := st_timer s;
     st_lastWidth := st_lastWidth s; st_skipFirst := v;
     st_width := st_width s; st_now := st_now s; st_raf := st_raf s;
     st_chars := st_chars s; st_words := st_words s; st_lines := st_lines s;
     st_next := st_next s; st_resplits := st_resplits s;
     st_resizeCalls := st_resizeCalls s; st_log := st_log s |}.
Definition set_width (v : Z) (s : St) : St :=
  {| st_original := st_original s; st_content := st_content s;
     st_aria := st_aria s; st_active := st_active s;
     st_observer := st_observer s; st_timer := st_timer s;
     st_lastWidth := st_lastWidth s; st_skipFirst := st_skipFirst s;
     st_width := v; st_now := st_now s; st_raf := st_raf s;
     st_chars := st_chars s; st_words := st_words s; st_lines := st_lines s;
     st_next := st_next s; st_resplits := st_resplits s;
     st_resizeCalls := st_resizeCalls s; st_log := st_log s |}.
Definition set_now (v : nat) (s : St) : St :=
  {| st_original := st_original s; st_content := st_content s;
     st_aria := st_aria s; st_active := st_active s;
     st_observer := st_observer s; st_timer := st_timer s;
     st_lastWidth := st_lastWidth s; st_skipFirst := st_skipFirst s;
     st_width := st_width s; st_now := v; st_raf := st_raf s;
     st_chars := st_chars s; st_words := st_words s; st_lines := st_lines s;
     st_next := st_next s; st_resplits := st_resplits s;
     st_resizeCalls := st_resizeCalls s; st_log := st_log s |}.
Definition set_raf (v : nat) (s : St) : St :=
  {| st_original := st_original s; st_content := st_content s;
     st_aria := st_aria s; st_active := st_active s;
     st_observer := st_observer s; st_timer := st_timer s;
     st_lastWidth := st_lastWidth s; st_skipFirst := st_skipFirst s;
     st_width := st_width s; st_now := st_now s; st_raf := v;
     st_chars := st_chars s; st_words := st_words s; st_lines := st_lines s;
     st_next := st_next s; st_resplits := st_resplits s;
     st_resizeCalls := st_resizeCalls s; st_log := st_log s |}.
Definition set_chars (v : list CharSpan) (s : St) : St :=
  {| st_original := st_original s; st_content := st_content s;
     st_aria := st_aria s; st_active := st_active s;
     st_observer := st_observer s; st_timer := st_timer s;
     st_lastWidth := st_lastWidth s; st_skipFirst := st_skipFirst s;
     st_width := st_width s; st_now := st_now s; st_raf := st_raf s;
     st_chars := v; st_words := st_words s; st_lines := st_lines s;
     st_next := st_next s; st_resplits := st_resplits s;
     st_resizeCalls := st_resizeCalls s; st_log := st_log s |}.
Definition set_words (v : list WordSpan) (s : St) : St :=
  {| st_original := st_original s; st_content := st_content s;
     st_aria := st_aria s; st_active := st_active s;
     st_observer := st_observer s; st_timer := st_timer s;
     st_lastWidth := st_lastWidth s; st_skipFirst := st_skipFirst s;
     st_width := st_width s; st_now := st_now s; st_raf := st_raf s;
     st_chars := st_chars s; st_words := v; st_lines := st_lines s;
     st_next := st_next s; st_resplits := st_resplits s;
     st_resizeCalls := st_resizeCalls s; st_log := st_log s |}.
Definition set_lines (v : list LineSpan) (s : St) : St :=
  {| st_original := st_original s; st_content := st_content s;
     st_aria := st_aria s; st_active := st_active s;
     st_observer := st_observer s; st_timer := st_timer s;
     st_lastWidth := st_lastWidth s; st_skipFirst := st_skipFirst s;
     st_width := st_width s; st_now := st_now s; st_raf := st_raf s;
     st_chars := st_chars s; st_words := st_words s; st_lines := v;
     st_next := st_next s; st_resplits := st_resplits s;
     st_resizeCalls := st_resizeCalls s; st_log := st_log s |}.
Definition set_next (v : nat) (s : St) : St :=
  {| st_original := st_original s; st_content := st_content s;
     st_aria := st_aria s; st_active := st_active s;
     st_observer := st_observer s; st_timer := st_timer s;
     st_lastWidth := st_lastWidth s; st_skipFirst := st_skipFirst s;
     st_width := st_width s; st_now := st_now s; st_raf := st_raf s;
     st_chars := st_chars s; st_words := st_words s; st_lines := st_lines s;
     st_next := v; st_resplits := st_resplits s;
     st_resizeCalls := st_resizeCalls s; st_log := st_log s |}.
Definition set_resplits (v : nat) (s : St) : St :=
  {| st_original := st_original s; st_content := st_content s;
     st_aria := st_aria s; st_active := st_active s;
     st_observer := st_observer s; st_timer := st_timer s;
     st_lastWidth := st_lastWidth s; st_skipFirst := st_skipFirst s;
     st_width := st_width s; st_now := st_now s; st_raf := st_raf s;
     st_chars := st_chars s; st_words := st_words s; st_lines := st_lines s;
     st_next := st_next s; st_resplits := v;
     st_resizeCalls := st_resizeCalls s; st_log := st_log s |}.
Definition set_resizeCalls (v : list (list CharSpan * list WordSpan * list LineSpan)) (s : St) : St :=
  {| st_original := st_original s; st_content := st_content s;
     st_aria := st_aria s; st_active := st_active s;
     st_observer := st_observer s; st_timer := st_timer s;
     st_lastWidth := st_lastWidth s; st_skipFirst := st_skipFirst s;
     st_width := st_width s; st_now := st_now s; st_raf := st_raf s;
     st_chars := st_chars s; st_words := st_words s; st_lines := st_lines s;
     st_next := st_next s; st_resplits := st_resplits s;
     st_resizeCalls := v; st_log := st_log s |}.
Definition set_log (v : list Warning) (s : St) : St :=
  {| st_original := st_original s; st_content := st_content s;
     st_aria := st_aria s; st_active := st_active s;
     st_observer := st_observer s; st_timer := st_timer s;
     st_lastWidth := st_lastWidth s; st_skipFirst := st_skipFirst s;
     st_width := st_width s; st_now := st_now s; st_raf := st_raf s;
     st_chars := st_chars s; st_words := st_words s; st_lines := st_lines s;
     st_next := st_next s; st_resplits := st_resplits s;
     st_resizeCalls := st_resizeCalls s; st_log := v |}.

(** [simpl] reads a field through the assignments. *)
Arguments set_content _ _ /.
Arguments set_aria _ _ /.
Arguments set_active _ _ /.
Arguments set_observer _ _ /.
Arguments set_timer _ _ /.
Arguments set_lastWidth _ _ /.
Arguments set_skipFirst _ _ /.
Arguments set_width _ _ /.
Arguments set_now _ _ /.
Arguments set_raf _ _ /.
Arguments set_chars _ _ /.
Arguments set_words _ _ /.
Arguments set_lines _ _ /.
Arguments set_next _ _ /.
Arguments set_resplits _ _ /.
Arguments set_resizeCalls _ _ /.
Arguments set_log _ _ /.

(** [measureOriginalText] together with its calls of [segmentGraphemes]:
    [new Intl.Segmenter(...)] runs once per visited text node and throws
    where the constructor does not exist. *)
Definition measure_checked (host : Host) (rect : nat -> Q)
    (nodes : list (list grapheme)) : SplitError + list MeasuredWord :=
  match nodes with
  | [] => inr []
  | _ :: _ =>
      if host_segmenter host then inr (measureOriginalText rect nodes)
      else inl ErrNoSegmenter
  end.

Definition width_eqb (a b : option Z) : bool :=
  match a, b with
  | Some x, Some y => Z.eqb x y
  | None, None => true
  | _, _ => false
  end.
Arguments width_eqb : simpl never.

Definition has_parent (p : option Z) : bool :=
  match p with Some _ => true | None => false end.

Section Closures.

Variable opts : Options.
Variable host : Host.

(** [dispose] *)
Definition dispose (s : St) : St :=
  if negb (st_active s) then s
  else set_active false (set_timer None (set_observer false s)).

(** [revert]: [innerHTML = originalHTML], [removeAttribute("aria-label")],
    then [dispose()]. *)
Definition revert (s : St) : St :=
  if negb (st_active s) then s
  else dispose (set_aria None (set_content (COrig (st_original s)) s)).

(** [handleResize], run when the debounce timer fires: it restores the
    original markup and requests an animation frame. *)
Definition handleResize (s : St) : St :=
  if negb (st_active s) then s
  else if width_eqb (Some (st_width s)) (st_lastWidth s) then s
  else set_raf (S (st_raf s))
         (set_content (COrig (st_original s))
            (set_lastWidth (Some (st_width s)) s)).

(** The [requestAnimationFrame] callback of [handleResize]: re-measure
    and re-split, update [currentChars]/[currentWords]/[currentLines],
    call [onResize]. *)
Definition resplit (s : St) : St :=
  if negb (st_active s) then s
  else
    let k := S (st_resplits s) in
    let lay := host_layout host k in
    let out := performSplit lay (st_next s)
                 (measureOriginalText (lay_rect lay) (text_nodes (st_content s))) in
    set_resizeCalls
      (if opt_onResize opts
       then st_resizeCalls s ++ [(ps_chars out, ps_words out, ps_lines out)]
       else st_resizeCalls s)
      (set_resplits k (set_next (ps_next out)
         (set_lines (ps_lines out) (set_words (ps_words out)
            (set_chars (ps_chars out) (set_content (CSplit (ps_lines out)) s)))))).

Fixpoint run_rafs (n : nat) (s : St) : St :=
  match n with
  | O => s
  | S n' => run_rafs n' (resplit s)
  end.

(** A rendering frame runs every pending animation-frame callback. *)
Definition frame (s : St) : St := run_rafs (st_raf s) (set_raf 0 s).

(** The [ResizeObserver] callback: the first call only clears
    [skipFirst]; later ones replace the debounce timer. *)
Definition observer_callback (s : St) : St :=
  if st_skipFirst s then set_skipFirst false s
  else set_timer (Some (st_now s + 200)%nat) s.

(** What can happen after [splitText] returned.  [EvResize w]: the
    parent's box is reported to the observer (its width is now [w]; a
    notification with an unchanged width is a height change or the
    initial notification of [observe]).  [EvAdvance dt]: [dt] ms pass.
    [EvFrame]: a rendering frame.  [EvResolve]/[EvReject]: the
    [revertOnComplete] promise settles. *)
Inductive Event :=
  | EvResize (w : Z)
  | EvAdvance (dt : nat)
  | EvFrame
  | EvDispose
  | EvRevert
  | EvResolve
  | EvReject.

(** A fired [setTimeout] leaves a stale handle in [debounceTimer];
    [clearTimeout] on it does nothing, so the model forgets it. *)
Definition step (e : Event) (s : St) : St :=
  match e with
  | EvResize w =>
      let s1 := set_width w s in
      if st_observer s1 then observer_callback s1 else s1
  | EvAdvance dt =>
      match st_timer s with
      | Some d =>
          if (d <=? st_now s + dt)%nat
          then set_now (st_now s + dt)%nat
                 (handleResize (set_timer None (set_now d s)))
          else set_now (st_now s + dt)%nat s
      | None => set_now (st_now s + dt)%nat s
      end
  | EvFrame => frame s
  | EvDispose => dispose s
  | EvRevert => revert s
  | EvResolve =>
      match opt_revertOnComplete opts with
      | RPromise => if st_active s then revert s else s
      | _ => s
      end
  | EvReject =>
      match opt_revertOnComplete opts with
      | RPromise => set_log (st_log s ++ [WPromiseRejected]) s
      | _ => s
      end
  end.

Fixpoint run (es : list Event) (s : St) : St :=
  match es with
  | [] => s
  | e :: es' => run es' (step e s)
  end.

(** [splitText(element, options)] *)
Definition splitText (c : Container) : SplitError + (SplitResult * St) :=
  match c with
  | NotHTMLElement => inl ErrNotHTMLElement
  | HTMLElement nodes parent =>
      let text := js_trim (textContent nodes) in
      let parentW := match parent with Some w => w | None => 0 end in
      match text with
      | [] =>
          inr ({| res_chars := []; res_words := []; res_lines := [];
                  res_prefersReducedMotion := host_reducedMotion host;
                  res_live := false |},
               {| st_original := nodes; st_content := COrig nodes;
                  st_aria := None; st_active := false; st_observer := false;
                  st_timer := None; st_lastWidth := None; st_skipFirst := true;
                  st_width := parentW; st_now := 0; st_raf := 0;
                  st_chars := []; st_words := []; st_lines := [];
                  st_next := 0; st_resplits := 0; st_resizeCalls := [];
                  st_log := [WNoText] |})
      | _ :: _ =>
          let log1 :=
            (if opt_autoSplit opts && negb (has_parent parent)
             then [WAutoSplitNeedsParent] else [])
            ++ (if String.eqb (effective_type opts) default_type then []
                else [WTypeNotImplemented (effective_type opts)]) in
          let lay := host_layout host 0 in
          match measure_checked host (lay_rect lay) nodes with
          | inl e => inl e
          | inr mws =>
              let out := performSplit lay 0 mws in
              let observing := opt_autoSplit opts && has_parent parent in
              let log2 :=
                log1 ++ (if opt_autoSplit opts && negb observing
                         then [WAutoSplitNoParentFound] else [])
                     ++ (match opt_revertOnComplete opts with
                         | RNotPromise => [WNotPromise] | _ => [] end) in
              inr ({| res_chars := ps_chars out; res_words := ps_words out;
                      res_lines := ps_lines out;
                      res_prefersReducedMotion := host_reducedMotion host;
                      res_live := true |},
                   {| st_original := nodes; st_content := CSplit (ps_lines out);
                      st_aria := Some text; st_active := true;
                      st_observer := observing; st_timer := None;
                      st_lastWidth := if observing then Some parentW else None;
                      st_skipFirst := true; st_width := parentW; st_now := 0;
                      st_raf := 0; st_chars := ps_chars out;
                      st_words := ps_words out; st_lines := ps_lines out;
                      st_next := ps_next out; st_resplits := 0;
                      st_resizeCalls := []; st_log := log2 |})
          end
      end
  end.

(** The [revert] and [dispose] of a returned object. *)
Definition result_revert (r : SplitResult) (s : St) : St :=
  if res_live r then revert s else s.

Definition result_dispose (r : SplitResult) (s : St) : St :=
  if res_live r then dispose s else s.

End Closures.

(** ** Readings of the specification used by the refinement statements *)

(** The spec's STEP 2: [expectedGap = originalLeft[i] - originalLeft[i-1]]
    for every non-first character. *)
Definition expected_gap_spec (mw : MeasuredWord) (i : nat) : option Q :=
  let ol := map mc_left (mw_chars mw) in
  match i with
  | O => None
  | S j => Some (nth (S j) ol 0%Q - nth j ol 0%Q)%Q
  end.

(** The spec's kerning compensator: [pos] are the current lefts measured
    once; character [0] is never offset; [delta] is applied, rounded to
    two decimals, when [|delta| < 20]. *)
Definition kerning_offset_spec (mw : MeasuredWord) (pos : nat -> Q) (i : nat)
    : option Q :=
  let ol := map mc_left (mw_chars mw) in
  match i with
  | O => None
  | S j =>
      let delta := ((nth (S j) ol 0 - nth j ol 0) - (pos (S j) - pos j))%Q in
      if Qltb (Qabs delta) 20 then Some (round2 delta) else None
  end.

(** ** Auxiliary definitions for the statements *)

Definition is_word_node (n : Node) : bool :=
  match n with NWord _ => true | NSpace => false end.

(** The text ["a—b"] as one text node. *)
Definition a_dash_b : list (list grapheme) := [[[97]; [8212]; [98]]].

(** [|round(top w) - round(top a)| < tolerance], the test of STEP 5 with
    [a] the anchor of the current line. *)
Definition within (tol : Q) (top : WordSpan -> Q) (a w : WordSpan) : bool :=
  Qltb (inject_Z (Z.abs (math_round (top w) - math_round (top a)))) tol.

(** Line groups described by their anchors: each group is non-empty, its
    first word is its anchor, every other word is [within] the anchor,
    and the anchor of a group is not [within] the previous anchor. *)
Fixpoint groups_ok (tol : Q) (top : WordSpan -> Q) (prev : option WordSpan)
    (gs : list (list WordSpan)) : Prop :=
  match gs with
  | [] => True
  | [] :: _ => False
  | (a :: rest) :: gs' =>
      match prev with
      | Some p => within tol top p a = false
      | None => True
      end /\
      forallb (within tol top a) rest = true /\
      groups_ok tol top (Some a) gs'
  end.

(** Two word spans with the given tops, for concrete line-grouping runs. *)
Definition word_at (id : nat) : WordSpan :=
  {| ws_id := id; ws_index := id; ws_chars := [] |}.

Definition tops_of (l : list Q) (w : WordSpan) : Q := nth (ws_id w) l 0%Q.

(** The text of a layer of nodes: each word's char texts, [" "] for a
    space node. *)
Definition layer_text (ns : list Node) : list Z :=
  flat_map (fun n => match n with
                     | NWord w => flat_map cs_text (ws_chars w)
                     | NSpace => [32]
                     end) ns.

(** The graphemes of a text with its space / newline / tab graphemes
    collapsed: none at either end, one space for each run between two
    other graphemes.  [emitted]: something was output; [sep]: a run was
    seen since. *)
Fixpoint collapse_from (emitted sep : bool) (gs : list grapheme) : list Z :=
  match gs with
  | [] => []
  | g :: gs' =>
      if is_boundary g then collapse_from emitted true gs'
      else (if emitted && sep then [32] else []) ++ g ++ collapse_from true false gs'
  end.

Definition collapse_ws (gs : list grapheme) : list Z := collapse_from false true gs.

(** No break character is directly followed by a space, newline or tab. *)
Fixpoint no_dash_ws (gs : list grapheme) : bool :=
  match gs with
  | g :: ((g' :: _) as gs') =>
      negb (is_break_char g && is_boundary g') && no_dash_ws gs'
  | _ => true
  end.

(** Measured words joined with a space before each non-first word that
    is not flagged [noSpaceBefore]. *)
Fixpoint join_words (started : bool) (mws : list MeasuredWord) : list Z :=
  match mws with
  | [] => []
  | mw :: mws' =>
      (if started && negb (mw_noSpaceBefore mw) then [32] else [])
        ++ flat_map mc_char (mw_chars mw) ++ join_words true mws'
  end.

(** Word spans joined with a space before each non-first word that is
    not in [set]. *)
Fixpoint join_ws (set : list nat) (started : bool) (ws : list WordSpan) : list Z :=
  match ws with
  | [] => []
  | w :: ws' =>
      (if started && negb (in_set set w) then [32] else [])
        ++ flat_map cs_text (ws_chars w) ++ join_ws set true ws'
  end.

(** ["a\nb"] as one text node. *)
Definition a_newline_b : list (list grapheme) := [[[97]; [10]; [98]]].

(** A layout where everything sits at 0, font size 16. *)
Definition flat_layout : Layout :=
  {| lay_rect := fun _ => 0%Q; lay_char_left := fun _ _ => 0%Q;
     lay_word_top := fun _ => 0%Q; lay_font_size := 16 |}.

Definition is_nil {A : Type} (l : list A) : bool :=
  match l with [] => true | _ :: _ => false end.

(** What the word in progress of a measurement state will add to the
    joined text once it is pushed. *)
Definition pend (s : MState) : list Z :=
  match ms_current s with
  | [] => []
  | cur =>
      (if negb (is_nil (ms_words s)) && negb (ms_noSpaceNext s) then [32] else [])
        ++ flat_map mc_char (rev cur)
  end.

(** The [collapse_from] state matching a measurement state. *)
Definition emitted (s : MState) : bool :=
  negb (is_nil (ms_words s)) || negb (is_nil (ms_current s)).

Definition sep (s : MState) : bool :=
  is_nil (ms_current s) && negb (ms_noSpaceNext s).

(** ["a\u2014 b"]: a dash followed by a space. *)
Definition a_dash_space_b : list (list grapheme) := [[[97]; [8212]; [32]; [98]]].

(** ** Hosts, options and containers used by the examples *)

(** [Intl.Segmenter] exists; every split sees [flat_layout]. *)
Definition flat_host : Host :=
  {| host_segmenter := true; host_reducedMotion := false;
     host_layout := fun _ => flat_layout |}.

(** A host without [Intl.Segmenter]. *)
Definition nosegm_host : Host :=
  {| host_segmenter := false; host_reducedMotion := false;
     host_layout := fun _ => flat_layout |}.

(** [{ autoSplit: true, onResize }] *)
Definition auto_opts : Options :=
  {| opt_type := None; opt_autoSplit := true; opt_onResize := true;
     opt_revertOnComplete := RNone |}.

(** ["a b"] in an element whose parent is 300 wide. *)
Definition ab_container : Container :=
  HTMLElement [[[97]; [32]; [98]]] (Some 300).

(** The options [o] with [type] set to [t]. *)
Definition with_type (o : Options) (t : option string) : Options :=
  {| opt_type := t; opt_autoSplit := opt_autoSplit o;
     opt_onResize := opt_onResize o;
     opt_revertOnComplete := opt_revertOnComplete o |}.

(** The outcome of [splitText] with the console left out. *)
Definition strip_log (o : SplitError + (SplitResult * St))
    : SplitError + (SplitResult * St) :=
  match o with
  | inl e => inl e
  | inr (r, s) => inr (r, set_log [] s)
  end.

(** Observer notifications for widths [w], each followed by [dt] ms. *)
Definition burst (ws : list (Z * nat)) : list Event :=
  flat_map (fun p => [EvResize (fst p); EvAdvance (snd p)]) ws.

(** Once [isActive] is false, the observer is gone and no timer is
    pending. *)
Definition quiet (s : St) : Prop :=
  st_active s = false -> st_observer s = false /\ st_timer s = None.

(** The last call of [onResize], if any. *)
Definition last_call (s : St)
    : option (list CharSpan * list WordSpan * list LineSpan) :=
  last (map Some (st_resizeCalls s)) None.

(** Until the first re-split the current arrays are the returned ones;
    after it, the current words are spans created from [n0] on and the
    last [onResize] call got the current arrays. *)
Definition arrays_inv (opts : Options) (r : SplitResult) (n0 : nat) (s : St) : Prop :=
  (st_resplits s = O ->
     st_chars s = res_chars r /\ st_words s = res_words r /\ st_lines s = res_lines r) /\
  ((0 < st_resplits s)%nat ->
     Forall (fun w => (n0 <= ws_id w)%nat) (st_words s) /\
     (opt_onResize opts = true -> last_call s = Some (st_chars s, st_words s, st_lines s))) /\
  (n0 <= st_next s)%nat.

(** The state [state_of] gives when [splitText] throws. *)
Definition blank_state : St :=
  {| st_original := []; st_content := COrig []; st_aria := None;
     st_active := false; st_observer := false; st_timer := None;
     st_lastWidth := None; st_skipFirst := false; st_width := 0; st_now := 0;
     st_raf := 0; st_chars := []; st_words := []; st_lines := []; st_next := 0;
     st_resplits := 0; st_resizeCalls := []; st_log := [] |}.

(** The closure state [splitText] leaves, if it returns. *)
Definition state_of (o : SplitError + (SplitResult * St)) : St :=
  match o with inr (_, s) => s | inl _ => blank_state end.

(** While the split is active, the label is [t], and the container holds
    the current line spans, or the original markup while a re-split frame
    is pending. *)
Definition live_inv (t : list Z) (s : St) : Prop :=
  st_active s = true ->
  st_aria s = Some t /\
  (st_raf s = 0%nat -> st_content s = CSplit (st_lines s)) /\
  ((0 < st_raf s)%nat -> st_content s = COrig (st_original s)).

(** An event that is neither [revert()], [dispose()] nor the settling of
    the [revertOnComplete] promise. *)
Definition keeps_active (e : Event) : Prop :=
  e <> EvRevert /\ e <> EvDispose /\ e <> EvResolve.

(** ** Further statements: measurement *)

(** The word ends with a break character. *)
Definition ends_dash (mw : MeasuredWord) : bool :=
  match rev (mw_chars mw) with
  | c :: _ => is_break_char (mc_char c)
  | [] => false
  end.

(** Each word is flagged [noSpaceBefore] exactly when the word before it
    ends with a break character ([prev] for the first word). *)
Fixpoint dash_flags (prev : bool) (mws : list MeasuredWord) : bool :=
  match mws with
  | [] => true
  | mw :: mws' => Bool.eqb (mw_noSpaceBefore mw) prev && dash_flags (ends_dash mw) mws'
  end.

Definition nonbreak (c : MeasuredChar) : bool := negb (is_break_char (mc_char c)).

(** A measured word has a character, starts at its first character's left,
    and has no break character before its last one. *)
Definition word_shape_ok (mw : MeasuredWord) : Prop :=
  match mw_chars mw with
  | [] => False
  | c :: _ =>
      mw_startLeft mw = mc_left c /\
      forallb nonbreak (removelast (mw_chars mw)) = true
  end.

(** The graphemes of a sequence other than space, newline and tab, each
    with [rect i] for its index [i] in the sequence. *)
Definition measured_positions (rect : nat -> Q) (gs : list grapheme)
    : list (grapheme * Q) :=
  filter (fun p => negb (is_boundary (fst p)))
         (combine gs (map rect (seq 0 (length gs)))).

Definition char_pairs (mcs : list MeasuredChar) : list (grapheme * Q) :=
  map (fun c => (mc_char c, mc_left c)) mcs.

(** The characters a measurement state holds, pushed or in progress. *)
Definition seen (s : MState) : list (grapheme * Q) :=
  char_pairs (flat_map mw_chars (rev (ms_words s)) ++ rev (ms_current s)).

(** The invariant of the measurement loop. *)
Definition mshape (s : MState) : Prop :=
  Forall word_shape_ok (ms_words s) /\
  dash_flags false (rev (ms_words s)) = true /\
  ms_noSpaceNext s = match ms_words s with [] => false | w :: _ => ends_dash w end /\
  forallb nonbreak (ms_current s) = true /\
  match rev (ms_current s) with
  | [] => ms_startLeft s = None
  | c :: _ => ms_startLeft s = Some (mc_left c)
  end.

(** ** Further statements: the spans *)

Definition node_words (n : Node) : list WordSpan :=
  match n with NWord w => [w] | NSpace => [] end.

(** The word spans of a line span, in order. *)
Definition line_words (l : LineSpan) : list WordSpan :=
  flat_map node_words (ls_children l).

(** A [marginLeft], if set, is at most 20 in absolute value. *)
Definition margin_ok (c : CharSpan) : Prop :=
  match cs_marginLeft c with Some m => (Qabs m <= 20)%Q | None => True end.

Definition non_ws (g : grapheme) : bool := negb (is_boundary g).

(** Children that start and end with a word span and hold at most one
    space node between two word spans. *)
Fixpoint spaced (ns : list Node) : bool :=
  match ns with
  | [NWord _] => true
  | NWord _ :: NSpace :: ((NWord _ :: _) as rest) => spaced rest
  | NWord _ :: ((NWord _ :: _) as rest) => spaced rest
  | _ => false
  end.

(** ** Further statements: the closures *)

(** No observer, no pending timer, no pending animation frame. *)
Definition idle (s : St) : Prop :=
  st_observer s = false /\ st_timer s = None /\ st_raf s = 0%nat.

(** The current chars spell the original text without its spaces,
    newlines and tabs, and so does the markup the container holds. *)
Definition text_inv (s : St) : Prop :=
  map cs_text (st_chars s) = filter non_ws (concat (st_original s)) /\
  filter non_ws (concat (text_nodes (st_content s))) = filter non_ws (concat (st_original s)).

Definition aria_inv (t : list Z) (s : St) : Prop :=
  st_active s = true -> st_aria s = Some t.

Definition pending_inv (s : St) : Prop :=
  (0 < st_raf s)%nat -> st_content s = COrig (st_original s).


(** * Proofs *)

(** ** Kerning compensation *)
Lemma round2_close (d : Q) : (Qabs (round2 d - d) <= 1 # 200)%Q.
Proof.
  unfold round2, math_round.
  pose proof (Qfloor_le (d * 100 + (1 # 2))).
  pose proof (Qlt_floor (d * 100 + (1 # 2))).
  set (z := Qfloor (d * 100 + (1 # 2))) in *.
  apply Qabs_Qle_condition.
  rewrite inject_Z_plus in H0. unfold inject_Z at 2 in H0.
  unfold Qdiv. change (/ 100)%Q with (1 # 100)%Q.
  split; lra.
Qed.

Lemma compensate_from_length p cs ps :
  length (compensate_from p cs ps) = length cs.
Proof.
  revert p ps; induction cs as [|c cs IH]; intros p ps; destruct ps; simpl; auto.
Qed.

Lemma build_chars_length nx ci prev mcs :
  length (build_chars nx ci prev mcs) = length mcs.
Proof.
  revert nx ci prev; induction mcs; intros; simpl; auto.
Qed.

Lemma compensate_build_margin (left : nat -> Q) rest : forall k nx pl i,
  (i < length rest)%nat ->
  nth i (map cs_marginLeft
           (compensate_from (left k) (build_chars nx (S k) (Some pl) rest)
              (map left (seq (S k) (length rest))))) None
  = (let delta := ((nth i (map mc_left rest) 0 - nth i (pl :: map mc_left rest) 0)
                   - (left (S k + i)%nat - left (k + i)%nat))%Q in
     if Qltb (Qabs delta) 20 then Some (round2 delta) else None).
Proof.
  induction rest as [|mc rest IH]; intros k nx pl i Hi; simpl in Hi; [lia|].
  destruct i as [|i].
  - simpl. rewrite Nat.add_0_r. reflexivity.
  - simpl map. simpl compensate_from. simpl nth.
    specialize (IH (S k) (S nx) (mc_left mc) i ltac:(lia)).
    rewrite IH. now replace (S k + S i)%nat with (S (S k) + i)%nat by lia;
      replace (k + S i)%nat with (S k + i)%nat by lia.
Qed.

Lemma build_chars_gap rest : forall nx k pl i,
  (i < length rest)%nat ->
  nth i (map cs_expectedGap (build_chars nx k (Some pl) rest)) None
  = Some (nth i (map mc_left rest) 0 - nth i (pl :: map mc_left rest) 0)%Q.
Proof.
  induction rest as [|mc rest IH]; intros nx k pl i Hi; simpl in Hi; [lia|].
  destruct i as [|i]; simpl; [reflexivity|].
  apply (IH (S nx) (S k) (mc_left mc) i); lia.
Qed.

Lemma build_chars_text nx ci prev mcs :
  map cs_text (build_chars nx ci prev mcs) = map mc_char mcs.
Proof.
  revert nx ci prev; induction mcs; intros; simpl; f_equal; auto.
Qed.

Lemma compensate_from_text p cs ps :
  map cs_text (compensate_from p cs ps) = map cs_text cs.
Proof.
  revert p ps; induction cs as [|c cs IH]; intros p ps; destruct ps; simpl; auto.
  destruct (cs_expectedGap c); simpl; f_equal; auto.
Qed.

Lemma compensate_from_gap p cs ps :
  (length cs <= length ps)%nat ->
  map cs_expectedGap (compensate_from p cs ps) = repeat None (length cs).
Proof.
  revert p ps; induction cs as [|c cs IH]; intros p ps H; destruct ps; simpl in *;
    try lia; auto.
  destruct (cs_expectedGap c) eqn:E; simpl; rewrite ?E; f_equal; apply IH; lia.
Qed.

Lemma compensate_word_chars (left : nat -> Q) (w : WordSpan) :
  ws_chars (compensate_word left w) =
  match ws_chars w with
  | c0 :: (_ :: _) as rest =>
      c0 :: compensate_from (left 0%nat) rest (map left (seq 1 (length rest)))
  | _ => ws_chars w
  end.
Proof.
  unfold compensate_word; destruct (ws_chars w) as [|c0 [|c1 r]] eqn:E; simpl; rewrite ?E; reflexivity.
Qed.

Lemma build_chars_cons nx ci prev mc mcs :
  build_chars nx ci prev (mc :: mcs) =
  {| cs_id := nx; cs_index := ci; cs_text := mc_char mc;
     cs_expectedGap := match prev with
                       | Some p => Some (mc_left mc - p)%Q
                       | None => None end;
     cs_marginLeft := None |}
    :: build_chars (S nx) (S ci) (Some (mc_left mc)) mcs.
Proof. reflexivity. Qed.

(** C1: the builder stashes, on every non-first character, the gap to the
    previous character's original left position; compensation puts on
    character [i >= 1] the offset [round2 delta] where [delta] is the
    stashed gap minus the current gap, when [|delta| < 20], and nothing
    otherwise; the first character never gets an offset; every stashed gap
    is then discarded and the texts are kept; [round2] is within [1/200]. *)
Theorem kerning_compensation (left : nat -> Q) (next wi : nat) (mw : MeasuredWord) :
  let n := length (mw_chars mw) in
  let w := build_word next wi mw in
  let w' := compensate_word left w in
  map cs_expectedGap (ws_chars w) = map (expected_gap_spec mw) (seq 0 n) /\
  map cs_marginLeft (ws_chars w') = map (kerning_offset_spec mw left) (seq 0 n) /\
  map cs_expectedGap (ws_chars w') = repeat None n /\
  map cs_text (ws_chars w') = map mc_char (mw_chars mw) /\
  (forall d, Qabs (round2 d - d) <= 1 # 200)%Q.
Proof.
  intros n w w'.
  assert (HB : ws_chars w = build_chars (S next) 0 None (mw_chars mw))
    by reflexivity.
  assert (Hgap : map cs_expectedGap (ws_chars w) = map (expected_gap_spec mw) (seq 0 n)).
  { rewrite HB; subst n.
    destruct (mw_chars mw) as [|mc0 rest] eqn:E; [reflexivity|].
    apply nth_ext with (d := None) (d' := None).
    - rewrite !length_map, build_chars_length, length_seq; reflexivity.
    - intros i Hi. rewrite length_map, build_chars_length in Hi.
      rewrite (map_nth (expected_gap_spec mw) (seq 0 (length (mc0 :: rest))) 0%nat),
        seq_nth by exact Hi. simpl (0 + i)%nat.
      unfold expected_gap_spec; rewrite E.
      destruct i as [|i]; [reflexivity|].
      rewrite build_chars_cons. simpl in Hi |- *. apply build_chars_gap; lia. }
  split; [exact Hgap|].
  subst w'; rewrite compensate_word_chars, HB; subst n w; clear HB Hgap.
  destruct (mw_chars mw) as [|mc0 rest] eqn:E.
  { repeat split; try reflexivity; intro; apply round2_close. }
  rewrite build_chars_cons.
  destruct rest as [|mc1 r].
  { repeat split; try reflexivity; intro; apply round2_close. }
  set (rest := mc1 :: r) in *.
  destruct (build_chars (S (S next)) 1 (Some (mc_left mc0)) rest) as [|b bs] eqn:B.
  { apply (f_equal (@length CharSpan)) in B.
    rewrite build_chars_length in B; discriminate. }
  cbv beta iota. rewrite <- B.
  assert (Hlen : length (build_chars (S (S next)) 1 (Some (mc_left mc0)) rest)
                 = length rest) by apply build_chars_length.
  rewrite Hlen.
  repeat split.
  - apply nth_ext with (d := None) (d' := None).
    + rewrite !length_map, length_seq; cbn [length]; rewrite compensate_from_length, Hlen; reflexivity.
    + intros i Hi. rewrite !length_map in Hi; cbn [length] in Hi.
      rewrite compensate_from_length in Hi.
      destruct i as [|i]; [reflexivity|].
      change (nth (S i) (map cs_marginLeft (?c :: ?l)) None)
        with (nth i (map cs_marginLeft l) None).
      rewrite compensate_build_margin with (k := 0%nat) by lia.
      change (nth (S i) (map (kerning_offset_spec mw left) (seq 0 (length (mc0 :: rest)))) None)
        with (nth i (map (kerning_offset_spec mw left) (seq 1 (length rest))) None).
      rewrite (map_nth (kerning_offset_spec mw left) (seq 1 (length rest)) 0%nat),
        seq_nth by lia.
      unfold kerning_offset_spec; rewrite E. reflexivity.
  - cbn [map repeat length cs_expectedGap]. f_equal. rewrite <- Hlen. apply compensate_from_gap.
    rewrite Hlen, length_map, length_seq; lia.
  - simpl map at 1. rewrite compensate_from_text, build_chars_text. reflexivity.
  - apply round2_close.
Qed.

(** ** Dash continuation *)

(** The word list of the measurement state only grows. *)
Definition grows (s s' : MState) : Prop :=
  exists ws, ms_words s' = ws ++ ms_words s.

Lemma grows_refl s : grows s s.
Proof. exists []; reflexivity. Qed.

Lemma grows_trans s1 s2 s3 : grows s1 s2 -> grows s2 s3 -> grows s1 s3.
Proof.
  intros [a Ha] [b Hb]; exists (b ++ a); rewrite Hb, Ha, app_assoc; reflexivity.
Qed.

Lemma pushWord_grows s : grows s (pushWord s).
Proof.
  unfold pushWord; destruct (ms_current s); [apply grows_refl|].
  eexists [_]; reflexivity.
Qed.

Lemma measure_step_grows s g l : grows s (measure_step s g l).
Proof.
  unfold measure_step.
  destruct (is_boundary g); [apply pushWord_grows|].
  destruct (is_break_char g); [|exists []; reflexivity].
  unfold pushWord; simpl. eexists [_]; reflexivity.
Qed.

Lemma measure_from_grows rect gs : forall i s, grows s (measure_from rect i gs s).
Proof.
  induction gs as [|g gs IH]; intros i s; simpl; [apply grows_refl|].
  eapply grows_trans; [apply measure_step_grows|apply IH].
Qed.

Lemma measure_from_app rect xs : forall ys i s,
  measure_from rect i (xs ++ ys) s
  = measure_from rect (i + length xs) ys (measure_from rect i xs s).
Proof.
  induction xs as [|x xs IH]; intros ys i s; simpl.
  - rewrite Nat.add_0_r; reflexivity.
  - rewrite IH; f_equal; lia.
Qed.

Lemma measure_step_break s g l :
  is_boundary g = false -> is_break_char g = true ->
  exists w,
    ms_words (measure_step s g l) = w :: ms_words s /\
    mw_chars w = rev (ms_current s) ++ [{| mc_char := g; mc_left := l |}] /\
    mw_noSpaceBefore w = ms_noSpaceNext s /\
    ms_current (measure_step s g l) = [] /\
    ms_noSpaceNext (measure_step s g l) = true.
Proof.
  intros Hb Hk; unfold measure_step; rewrite Hb, Hk; simpl.
  eexists; repeat split.
Qed.

Lemma measure_step_plain s g l :
  is_boundary g = false -> is_break_char g = false ->
  ms_words (measure_step s g l) = ms_words s /\
  ms_current (measure_step s g l) = {| mc_char := g; mc_left := l |} :: ms_current s /\
  ms_noSpaceNext (measure_step s g l) = ms_noSpaceNext s.
Proof.
  intros Hb Hk; unfold measure_step; rewrite Hb, Hk; simpl; auto.
Qed.

Lemma measure_step_boundary s g l :
  is_boundary g = true -> measure_step s g l = pushWord s.
Proof. intros Hb; unfold measure_step; rewrite Hb; reflexivity. Qed.

(** A word in progress is eventually pushed with the flag it has now and
    its characters so far as a prefix. *)
Lemma measure_from_pending rect ys : forall i s,
  ms_current s <> [] ->
  exists w ext rest,
    rev (ms_words (pushWord (measure_from rect i ys s)))
      = rev (ms_words s) ++ w :: rest /\
    mw_chars w = rev (ms_current s) ++ ext /\
    mw_noSpaceBefore w = ms_noSpaceNext s.
Proof.
  induction ys as [|y ys IH]; intros i s Hc.
  - simpl. unfold pushWord. destruct (ms_current s) as [|c cs] eqn:E;
      [contradiction|].
    eexists _, [], []. split; [reflexivity|split; [rewrite app_nil_r; reflexivity|reflexivity]].
  - simpl measure_from.
    set (s' := measure_step s y (rect i)).
    destruct (measure_from_grows rect ys (S i) s') as [ws Hws].
    destruct (pushWord_grows (measure_from rect (S i) ys s')) as [ws' Hws'].
    destruct (is_boundary y) eqn:Hb.
    + assert (Hs : s' = pushWord s) by (apply measure_step_boundary; exact Hb).
      rewrite Hws', Hws, Hs. unfold pushWord at 1.
      destruct (ms_current s) as [|c cs] eqn:E; [contradiction|].
      eexists _, [], (rev ws ++ rev ws').
      cbn [ms_words]. rewrite !rev_app_distr. cbn [rev].
      split; [rewrite <- !app_assoc; reflexivity|].
      split; [rewrite app_nil_r; reflexivity|reflexivity].
    + destruct (is_break_char y) eqn:Hk.
      * destruct (measure_step_break s y (rect i) Hb Hk)
          as (w & Hw & Hchars & Hflag & _ & _).
        fold s' in Hw.
        exists w, [{| mc_char := y; mc_left := rect i |}], (rev ws ++ rev ws').
        rewrite Hws', Hws, Hw, !rev_app_distr. simpl.
        split; [rewrite <- !app_assoc; reflexivity|].
        split; assumption.
      * destruct (measure_step_plain s y (rect i) Hb Hk) as (Hw & Hcur & Hflag).
        fold s' in Hw, Hcur, Hflag.
        destruct (IH (S i) s') as (w & ext & rest & H1 & H2 & H3);
          [rewrite Hcur; discriminate|].
        exists w, ({| mc_char := y; mc_left := rect i |} :: ext), rest.
        rewrite H1, Hw, H2, Hcur, H3, Hflag. simpl.
        rewrite <- app_assoc. repeat split.
Qed.

Lemma break_not_boundary g : is_break_char g = true -> is_boundary g = false.
Proof.
  destruct g as [|c [|c' g]]; simpl; try discriminate.
  intros H. apply orb_true_iff in H as [H|H]; apply Z.eqb_eq in H; subst; reflexivity.
Qed.

Lemma measure_from_final_grows rect ys i s :
  exists rest, rev (ms_words (pushWord (measure_from rect i ys s)))
               = rev (ms_words s) ++ rest.
Proof.
  destruct (measure_from_grows rect ys i s) as [ws Hws].
  destruct (pushWord_grows (measure_from rect i ys s)) as [ws' Hws'].
  exists (rev ws ++ rev ws'). rewrite Hws', Hws, !rev_app_distr, app_assoc.
  reflexivity.
Qed.

(** Measurement around a break character followed by a non-boundary
    grapheme: the word ending in the dash is immediately followed by a
    word starting with that grapheme and flagged [noSpaceBefore]. *)
Lemma measure_dash_split (rect : nat -> Q) nodes p d g sfx :
  concat nodes = p ++ d :: g :: sfx ->
  is_break_char d = true -> is_boundary g = false ->
  exists ws1 w1 w2 ws2 pre post,
    measureOriginalText rect nodes = ws1 ++ w1 :: w2 :: ws2 /\
    map mc_char (mw_chars w1) = pre ++ [d] /\
    map mc_char (mw_chars w2) = g :: post /\
    mw_noSpaceBefore w2 = true.
Proof.
  intros Hn Hd Hg.
  unfold measureOriginalText. rewrite Hn, measure_from_app. simpl measure_from.
  change (0 + length p)%nat with (length p).
  set (k := length p).
  set (s0 := measure_from rect 0 p ms_init).
  destruct (measure_step_break s0 d (rect k) (break_not_boundary d Hd) Hd)
    as (w1 & Hw1 & Hc1 & _ & Hcur1 & Hfl1).
  set (s1 := measure_step s0 d (rect k)) in *.
  set (s2 := measure_step s1 g (rect (S k))).
  destruct (is_break_char g) eqn:Hk.
  - destruct (measure_step_break s1 g (rect (S k)) Hg Hk)
      as (w2 & Hw2 & Hc2 & Hf2 & _ & _).
    fold s2 in Hw2.
    destruct (measure_from_final_grows rect sfx (S (S k)) s2) as [rest Hr].
    exists (rev (ms_words s0)), w1, w2, rest,
      (map mc_char (rev (ms_current s0))), [].
    rewrite Hr, Hw2, Hw1. split; [simpl; rewrite <- !app_assoc; reflexivity|].
    split; [rewrite Hc1, map_app; reflexivity|].
    split; [rewrite Hc2, Hcur1; reflexivity|].
    rewrite Hf2; exact Hfl1.
  - destruct (measure_step_plain s1 g (rect (S k)) Hg Hk) as (Hw2 & Hc2 & Hf2).
    fold s2 in Hw2, Hc2, Hf2.
    destruct (measure_from_pending rect sfx (S (S k)) s2)
      as (w2 & ext & rest & Hr & Hch & Hfl); [rewrite Hc2; discriminate|].
    exists (rev (ms_words s0)), w1, w2, rest,
      (map mc_char (rev (ms_current s0))), (map mc_char ext).
    rewrite Hr, Hw2, Hw1. split; [simpl; rewrite <- !app_assoc; reflexivity|].
    split; [rewrite Hc1, map_app; reflexivity|].
    split; [rewrite Hch, Hc2, Hcur1; reflexivity|].
    rewrite Hfl, Hf2; exact Hfl1.
Qed.

Lemma a_dash_b_split (lay : Layout) (next : nat) :
  let out := performSplit lay next (measureOriginalText (lay_rect lay) a_dash_b) in
  map (fun w => map cs_text (ws_chars w)) (ps_words out) = [[[97]; [8212]]; [[98]]] /\
  forallb is_word_node (ps_wordLayer out) = true /\
  forallb (fun l => forallb is_word_node (ls_children l)) (ps_lines out) = true.
Proof.
  cbv zeta. unfold performSplit, measureOriginalText, a_dash_b.
  simpl. rewrite Nat.eqb_refl. simpl.
  unfold detect_lines. simpl.
  destruct (Qltb _ _); simpl; rewrite ?Nat.eqb_refl; simpl; repeat split.
Qed.

(** ** Line detection *)

Lemma group_lines_spec tol top ws : forall groups a rest_rev prev,
  (match prev with Some p => within tol top p a = false | None => True end) ->
  forallb (within tol top a) rest_rev = true ->
  exists gs,
    group_lines tol top groups (rest_rev ++ [a]) (Some (math_round (top a))) ws
      = rev groups ++ gs /\
    concat gs = a :: rev rest_rev ++ ws /\
    groups_ok tol top prev gs.
Proof.
  induction ws as [|w ws IH]; intros groups a rest_rev prev Hprev Hrest.
  - exists [a :: rev rest_rev]. simpl.
    destruct (rest_rev ++ [a]) eqn:E; [destruct rest_rev; discriminate|].
    rewrite <- E, rev_app_distr. simpl. split; [reflexivity|].
    split; [rewrite app_nil_r; reflexivity|].
    split; [exact Hprev|]. split; [|exact I].
    rewrite forallb_forall in Hrest |- *. intros x Hx. apply Hrest, in_rev, Hx.
  - simpl. fold (within tol top a w).
    destruct (within tol top a w) eqn:Hw.
    + destruct (IH groups a (w :: rest_rev) prev Hprev) as (gs & H1 & H2 & H3);
        [simpl; rewrite Hw, Hrest; reflexivity|].
      exists gs. simpl app in H1. rewrite H1. split; [reflexivity|].
      split; [rewrite H2; simpl; rewrite <- app_assoc; reflexivity|exact H3].
    + destruct (IH (rev (rest_rev ++ [a]) :: groups) w [] (Some a) Hw eq_refl)
        as (gs & H1 & H2 & H3).
      exists ((a :: rev rest_rev) :: gs).
      simpl app in H1. rewrite H1, rev_app_distr. simpl.
      rewrite <- app_assoc. split; [reflexivity|].
      split; [rewrite H2; reflexivity|].
      split; [exact Hprev|]. split; [|exact H3].
      rewrite forallb_forall in Hrest |- *. intros x Hx. apply Hrest, in_rev, Hx.
Qed.

(** C5 (amended): STEP 5 groups the words, in order, into non-empty lines;
    with [tolerance fontSize = max(5, fontSize * 0.3)], every word of a
    line is within the tolerance of the line's first word (its anchor)
    after both tops are rounded with [Math.round], and the anchor of each
    new line is not within the tolerance of the previous anchor. *)
Theorem line_grouping_anchor (fontSize : Q) (top : WordSpan -> Q)
    (ws : list WordSpan) :
  concat (detect_lines fontSize top ws) = ws /\
  groups_ok (tolerance fontSize) top None (detect_lines fontSize top ws).
Proof.
  unfold detect_lines. destruct ws as [|w ws]; [split; [reflexivity|exact I]|].
  simpl group_lines.
  destruct (group_lines_spec (tolerance fontSize) top ws [] w [] None I eq_refl)
    as (gs & H1 & H2 & H3).
  simpl app in H1. rewrite H1. split; assumption.
Qed.

(** C5 (counterexample): with font size 16 the tolerance is 5.  Tops 0
    and 4.6 differ by less than 5, yet [Math.round] makes them 0 and 5
    and the second word starts a new line; and with tops 0, 4, 8 the last
    two words differ by 4 but land on different lines, because the third
    word is compared with the anchor only. *)
Lemma line_grouping_raw_top_counterexample :
  Qltb (Qabs (tops_of [0%Q; 23 # 5] (word_at 1) - tops_of [0%Q; 23 # 5] (word_at 0)))
       (tolerance 16) = true /\
  detect_lines 16 (tops_of [0%Q; 23 # 5]) [word_at 0; word_at 1]
    = [[word_at 0]; [word_at 1]] /\
  Qltb (Qabs (tops_of [0%Q; 4%Q; 8%Q] (word_at 2) - tops_of [0%Q; 4%Q; 8%Q] (word_at 1)))
       (tolerance 16) = true /\
  detect_lines 16 (tops_of [0%Q; 4%Q; 8%Q]) [word_at 0; word_at 1; word_at 2]
    = [[word_at 0; word_at 1]; [word_at 2]].
Proof. vm_compute. repeat split. Qed.

(** ** Round trip *)

Lemma layer_text_join_ws set ws :
  layer_text (layer_with_spaces set ws) = join_ws set false ws.
Proof.
  induction ws as [|w ws IH]; [reflexivity|].
  destruct ws as [|w' ws'].
  - simpl. rewrite !app_nil_r. reflexivity.
  - change (layer_with_spaces set (w :: w' :: ws'))
      with (NWord w :: (if in_set set w' then [] else [NSpace])
              ++ layer_with_spaces set (w' :: ws')).
    unfold layer_text in *. cbn [flat_map]. rewrite flat_map_app, IH.
    simpl. f_equal.
    destruct (in_set set w'); reflexivity.
Qed.

Lemma build_words_fst_cons next wi mw mws :
  fst (build_words next wi (mw :: mws))
  = build_word next wi mw
      :: fst (build_words (next + S (length (mw_chars mw))) (S wi) mws).
Proof.
  simpl. destruct (build_words (next + S (length (mw_chars mw))) (S wi) mws).
  reflexivity.
Qed.

Lemma flat_map_text_build_chars nx ci prev mcs :
  flat_map cs_text (build_chars nx ci prev mcs) = flat_map mc_char mcs.
Proof.
  revert nx ci prev; induction mcs; intros; simpl; f_equal; auto.
Qed.

Lemma join_ws_build set mws : forall next wi b,
  (forall k, (k < length mws)%nat ->
     in_set set (nth k (fst (build_words next wi mws)) (word_at 0))
     = mw_noSpaceBefore (nth k mws (Build_MeasuredWord [] 0 false))) ->
  join_ws set b (fst (build_words next wi mws)) = join_words b mws.
Proof.
  induction mws as [|mw mws IH]; intros next wi b H; [reflexivity|].
  rewrite build_words_fst_cons. simpl.
  pose proof (H 0%nat ltac:(simpl; lia)) as H0.
  rewrite build_words_fst_cons in H0. simpl in H0. rewrite H0.
  unfold build_word; simpl ws_chars. rewrite flat_map_text_build_chars.
  f_equal. f_equal. apply IH.
  intros k Hk. specialize (H (S k) ltac:(simpl; lia)).
  rewrite build_words_fst_cons in H. exact H.
Qed.

Lemma build_words_length mws : forall next wi,
  length (fst (build_words next wi mws)) = length mws.
Proof.
  induction mws as [|mw mws IH]; intros next wi; [reflexivity|].
  rewrite build_words_fst_cons; simpl; rewrite IH; reflexivity.
Qed.

Lemma build_words_ids_ge mws : forall next wi,
  Forall (fun w => (next <= ws_id w)%nat) (fst (build_words next wi mws)).
Proof.
  induction mws as [|mw mws IH]; intros next wi; [constructor|].
  rewrite build_words_fst_cons. constructor; [simpl; lia|].
  eapply Forall_impl; [|apply IH]. simpl; intros; lia.
Qed.

Lemma noSpaceBeforeSet_cons mw mws w ws :
  noSpaceBeforeSet (mw :: mws) (w :: ws)
  = (if mw_noSpaceBefore mw then [ws_id w] else []) ++ noSpaceBeforeSet mws ws.
Proof. unfold noSpaceBeforeSet; simpl; destruct (mw_noSpaceBefore mw); reflexivity. Qed.

Lemma noSpaceBeforeSet_in mws ws x :
  In x (noSpaceBeforeSet mws ws) -> exists w, In w ws /\ ws_id w = x.
Proof.
  unfold noSpaceBeforeSet. rewrite in_map_iff. intros ([mw w] & Hx & Hin).
  apply filter_In in Hin as [Hin _]. apply in_combine_r in Hin.
  exists w; split; assumption.
Qed.

Lemma noSpaceBeforeSet_correct mws : forall next wi k,
  (k < length mws)%nat ->
  in_set (noSpaceBeforeSet mws (fst (build_words next wi mws)))
         (nth k (fst (build_words next wi mws)) (word_at 0))
  = mw_noSpaceBefore (nth k mws (Build_MeasuredWord [] 0 false)).
Proof.
  induction mws as [|mw mws IH]; intros next wi k Hk; simpl in Hk; [lia|].
  rewrite build_words_fst_cons, noSpaceBeforeSet_cons.
  set (next' := (next + S (length (mw_chars mw)))%nat).
  assert (Hfresh : forall x, In x (noSpaceBeforeSet mws (fst (build_words next' (S wi) mws)))
                             -> (next' <= x)%nat).
  { intros x Hx. apply noSpaceBeforeSet_in in Hx as (w & Hw & <-).
    pose proof (build_words_ids_ge mws next' (S wi)) as HF.
    rewrite Forall_forall in HF. apply HF, Hw. }
  unfold in_set. rewrite existsb_app.
  destruct k as [|k].
  - simpl nth. unfold build_word; simpl ws_id.
    assert (E : existsb (Nat.eqb next)
                  (noSpaceBeforeSet mws (fst (build_words next' (S wi) mws))) = false).
    { apply not_true_is_false. intros Hex. apply existsb_exists in Hex as (x & Hx & Heq).
      apply Nat.eqb_eq in Heq. subst x. apply Hfresh in Hx. unfold next' in Hx. lia. }
    rewrite E, orb_false_r. destruct (mw_noSpaceBefore mw); simpl;
      [rewrite Nat.eqb_refl|]; reflexivity.
  - simpl nth. specialize (IH next' (S wi) k ltac:(lia)). unfold in_set in IH.
    rewrite IH.
    assert (Hge : (next' <= ws_id (nth k (fst (build_words next' (S wi) mws)) (word_at 0)))%nat).
    { pose proof (build_words_ids_ge mws next' (S wi)) as HF.
      rewrite Forall_forall in HF. apply HF, nth_In.
      rewrite build_words_length; lia. }
    destruct (mw_noSpaceBefore mw); simpl; [|reflexivity].
    replace (ws_id (nth k (fst (build_words next' (S wi) mws)) (word_at 0)) =? next)%nat
      with false; [reflexivity|].
    symmetry; apply Nat.eqb_neq. assert (next < next')%nat by (unfold next'; lia). lia.
Qed.

Lemma join_words_app b l1 l2 :
  join_words b (l1 ++ l2) = join_words b l1 ++ join_words (b || negb (is_nil l1)) l2.
Proof.
  revert b; induction l1 as [|mw l1 IH]; intros b; simpl.
  - rewrite orb_false_r; reflexivity.
  - rewrite IH, orb_true_r, <- !app_assoc; reflexivity.
Qed.

Lemma is_nil_rev {A} (l : list A) : is_nil (rev l) = is_nil l.
Proof. destruct l; simpl; [reflexivity|]. destruct (rev l); reflexivity. Qed.

Lemma pushWord_join s :
  join_words false (rev (ms_words (pushWord s)))
  = join_words false (rev (ms_words s)) ++ pend s.
Proof.
  unfold pushWord, pend. destruct (ms_current s) as [|c cs] eqn:E.
  - rewrite app_nil_r; reflexivity.
  - simpl ms_words. simpl rev. rewrite join_words_app, is_nil_rev. simpl.
    rewrite app_nil_r; reflexivity.
Qed.

Lemma no_dash_ws_tail g gs : no_dash_ws (g :: gs) = true -> no_dash_ws gs = true.
Proof.
  destruct gs as [|g' gs]; [reflexivity|]. simpl.
  intros H; apply andb_true_iff in H as [_ H]; exact H.
Qed.

Lemma no_dash_ws_head g g' gs :
  no_dash_ws (g :: g' :: gs) = true -> is_break_char g = true -> is_boundary g' = false.
Proof.
  simpl. intros H Hk. apply andb_true_iff in H as [H _].
  rewrite Hk in H. simpl in H. destruct (is_boundary g'); [discriminate|reflexivity].
Qed.

Lemma measure_collapse rect gs : forall i s,
  no_dash_ws gs = true ->
  (ms_noSpaceNext s = true -> ms_current s = [] ->
   match gs with g :: _ => is_boundary g = false | [] => True end) ->
  join_words false (rev (ms_words (pushWord (measure_from rect i gs s))))
  = join_words false (rev (ms_words s)) ++ pend s
      ++ collapse_from (emitted s) (sep s) gs.
Proof.
  induction gs as [|g gs IH]; intros i s Hnd Hfl.
  - simpl. rewrite pushWord_join, app_nil_r. reflexivity.
  - simpl measure_from. simpl collapse_from.
    destruct (is_boundary g) eqn:Hb.
    + rewrite measure_step_boundary by exact Hb.
      assert (Hs' : ms_current (pushWord s) = [] /\ ms_noSpaceNext (pushWord s) = false
                    /\ emitted (pushWord s) = emitted s).
      { unfold pushWord, emitted. destruct (ms_current s) as [|c cs] eqn:E.
        - destruct (ms_noSpaceNext s) eqn:F; [|rewrite E; auto].
          specialize (Hfl eq_refl eq_refl). congruence.
        - simpl. rewrite orb_true_r. auto. }
      destruct Hs' as (Hc & Hf & He).
      rewrite IH by (apply no_dash_ws_tail in Hnd; auto || congruence).
      rewrite pushWord_join, He. unfold sep at 1, pend at 2. rewrite Hc, Hf.
      simpl. rewrite <- app_assoc. reflexivity.
    + destruct (is_break_char g) eqn:Hk.
      * destruct (measure_step_break s g (rect i) Hb Hk)
          as (w & Hw & Hch & Hwf & Hc & Hf).
        rewrite IH.
        2: { eapply no_dash_ws_tail; eassumption. }
        2: { intros _ _. destruct gs as [|g' gs]; [exact I|].
             eapply no_dash_ws_head; eassumption. }
        rewrite Hw. simpl rev. rewrite join_words_app, is_nil_rev.
        unfold pend at 1. rewrite Hc.
        unfold emitted at 1, sep at 1. rewrite Hw, Hc, Hf. simpl.
        rewrite Hwf, Hch, flat_map_app. simpl. rewrite !app_nil_r.
        unfold pend, emitted, sep.
        destruct (ms_current s) as [|c cs]; simpl.
        -- destruct (is_nil (ms_words s)), (ms_noSpaceNext s); simpl;
             rewrite <- ?app_assoc; reflexivity.
        -- rewrite andb_false_r, <- !app_assoc. reflexivity.
      * destruct (measure_step_plain s g (rect i) Hb Hk) as (Hw & Hc & Hf).
        rewrite IH.
        2: { eapply no_dash_ws_tail; eassumption. }
        2: { intros _ Hc'. rewrite Hc in Hc'. discriminate. }
        unfold pend at 1, emitted at 1, sep at 1. rewrite Hc, Hw, ?Hf. simpl.
        rewrite flat_map_app. simpl. rewrite app_nil_r.
        unfold pend, emitted, sep.
        destruct (ms_current s) as [|c cs]; simpl.
        -- destruct (is_nil (ms_words s)), (ms_noSpaceNext s); simpl;
             rewrite <- ?app_assoc; reflexivity.
        -- rewrite andb_false_r, orb_true_r, <- !app_assoc. reflexivity.
Qed.

Lemma performSplit_wordLayer lay next mws :
  ps_wordLayer (performSplit lay next mws)
  = layer_with_spaces (noSpaceBeforeSet mws (fst (build_words next 0 mws)))
                      (fst (build_words next 0 mws)).
Proof. unfold performSplit. destruct (build_words next 0 mws); reflexivity. Qed.

Lemma measure_join rect nodes :
  no_dash_ws (concat nodes) = true ->
  join_words false (measureOriginalText rect nodes) = collapse_ws (concat nodes).
Proof.
  intros H. unfold measureOriginalText, collapse_ws.
  rewrite measure_collapse; [reflexivity | exact H | discriminate].
Qed.

(** C6 (amended): when no dash is directly followed by a space, newline or
    tab, the text of the rebuilt word layer (each word's character texts,
    with the inserted space nodes) is the original text with its runs of
    spaces, newlines and tabs collapsed to one space and removed at both
    ends; no space is put before a dash continuation. *)
Theorem round_trip_collapsed (lay : Layout) (next : nat)
    (nodes : list (list grapheme)) (H : no_dash_ws (concat nodes) = true) :
  layer_text (ps_wordLayer (performSplit lay next
                (measureOriginalText (lay_rect lay) nodes)))
  = collapse_ws (concat nodes).
Proof.
  rewrite performSplit_wordLayer, layer_text_join_ws, join_ws_build.
  - apply measure_join; exact H.
  - intros k Hk. apply noSpaceBeforeSet_correct; exact Hk.
Qed.

Lemma round_trip_collapsed_witness :
  no_dash_ws (concat a_newline_b) = true /\
  layer_text (ps_wordLayer (performSplit flat_layout 0
                (measureOriginalText (lay_rect flat_layout) a_newline_b)))
  = collapse_ws (concat a_newline_b).
Proof.
  split; [reflexivity|].
  apply (round_trip_collapsed flat_layout 0 a_newline_b); reflexivity.
Defined.

(** C6 (counterexample): for ["a\nb"] the rebuilt text is ["a b"], not the
    trimmed original ["a\nb"]; for ["a— b"] it is ["a—b"], the
    space after the dash being lost. *)
Lemma round_trip_counterexample :
  layer_text (ps_wordLayer (performSplit flat_layout 0
                (measureOriginalText (lay_rect flat_layout) a_newline_b)))
    = [97; 32; 98] /\
  js_trim (textContent a_newline_b) = [97; 10; 98] /\
  layer_text (ps_wordLayer (performSplit flat_layout 0
                (measureOriginalText (lay_rect flat_layout) a_dash_space_b)))
    = [97; 8212; 98] /\
  js_trim (textContent a_dash_space_b) = [97; 8212; 32; 98].
Proof. vm_compute. repeat split. Qed.

(** C4: when a dash is followed by a non-space grapheme, measurement ends
    the word right after the dash (which stays in the first fragment) and
    flags the next fragment [noSpaceBefore]; for ["a—b"], whatever the
    layout (hence the container width), the split gives the two words
    ["a—"] and ["b"] and no space node in the word layer or in any
    line. *)
Theorem dash_continuation (rect : nat -> Q) (nodes : list (list grapheme))
    (p : list grapheme) (d g : grapheme) (sfx : list grapheme)
    (Hn : concat nodes = p ++ d :: g :: sfx)
    (Hd : is_break_char d = true) (Hg : is_boundary g = false) :
  (exists ws1 w1 w2 ws2 pre post,
     measureOriginalText rect nodes = ws1 ++ w1 :: w2 :: ws2 /\
     map mc_char (mw_chars w1) = pre ++ [d] /\
     map mc_char (mw_chars w2) = g :: post /\
     mw_noSpaceBefore w2 = true) /\
  (forall (lay : Layout) (next : nat),
     let out := performSplit lay next (measureOriginalText (lay_rect lay) a_dash_b) in
     map (fun w => map cs_text (ws_chars w)) (ps_words out) = [[[97]; [8212]]; [[98]]] /\
     forallb is_word_node (ps_wordLayer out) = true /\
     forallb (fun l => forallb is_word_node (ls_children l)) (ps_lines out) = true).
Proof.
  split.
  - exact (measure_dash_split rect nodes p d g sfx Hn Hd Hg).
  - exact a_dash_b_split.
Qed.

Lemma dash_continuation_witness :
  concat a_dash_b = [[97]] ++ [8212] :: [98] :: [] /\
  is_break_char [8212] = true /\ is_boundary [98] = false /\
  exists ws1 w1 w2 ws2 pre post,
     measureOriginalText (fun _ => 0%Q) a_dash_b = ws1 ++ w1 :: w2 :: ws2 /\
     map mc_char (mw_chars w1) = pre ++ [[8212]] /\
     map mc_char (mw_chars w2) = [98] :: post /\
     mw_noSpaceBefore w2 = true.
Proof.
  split; [reflexivity|]. split; [reflexivity|]. split; [reflexivity|].
  exact (proj1 (dash_continuation (fun _ => 0%Q) a_dash_b [[97]] [8212] [98] []
                  eq_refl eq_refl eq_refl)).
Defined.

(** ** The lifecycle and the resize machine *)

Ltac simpl_st := simpl in *.

Lemma run_app opts host es1 es2 s :
  run opts host (es1 ++ es2) s = run opts host es2 (run opts host es1 s).
Proof. revert s; induction es1 as [|e es1 IH]; intros s; simpl; auto. Qed.

Lemma resplit_inactive opts host s :
  st_active s = false -> resplit opts host s = s.
Proof. intros H; unfold resplit; rewrite H; reflexivity. Qed.

Lemma run_rafs_inactive opts host n s :
  st_active s = false -> run_rafs opts host n s = s.
Proof.
  revert s; induction n as [|n IH]; intros s H; simpl; [reflexivity|].
  rewrite resplit_inactive by exact H. apply IH, H.
Qed.

(** A re-split touches only the markup, the three arrays, the id counter,
    the count of re-splits and the [onResize] calls. *)
Lemma resplit_ctl opts host s :
  let s' := resplit opts host s in
  st_original s' = st_original s /\ st_aria s' = st_aria s /\
  st_active s' = st_active s /\ st_observer s' = st_observer s /\
  st_timer s' = st_timer s /\ st_lastWidth s' = st_lastWidth s /\
  st_skipFirst s' = st_skipFirst s /\ st_width s' = st_width s /\
  st_now s' = st_now s /\ st_raf s' = st_raf s /\ st_log s' = st_log s.
Proof.
  unfold resplit. destruct (negb (st_active s)); repeat split.
Qed.

Lemma run_rafs_ctl opts host n : forall s,
  let s' := run_rafs opts host n s in
  st_original s' = st_original s /\ st_aria s' = st_aria s /\
  st_active s' = st_active s /\ st_observer s' = st_observer s /\
  st_timer s' = st_timer s /\ st_lastWidth s' = st_lastWidth s /\
  st_skipFirst s' = st_skipFirst s /\ st_width s' = st_width s /\
  st_now s' = st_now s /\ st_raf s' = st_raf s /\ st_log s' = st_log s.
Proof.
  induction n as [|n IH]; intros s; simpl; [repeat split|].
  destruct (IH (resplit opts host s)) as (H1 & H2 & H3 & H4 & H5 & H6 & H7 & H8 & H9 & H10 & H11).
  destruct (resplit_ctl opts host s) as (G1 & G2 & G3 & G4 & G5 & G6 & G7 & G8 & G9 & G10 & G11).
  repeat split; congruence.
Qed.

(** Nothing but [splitText] makes the state active, and an inactive state
    has no observer and no pending timer. *)
Lemma quiet_step opts host e s :
  quiet s -> quiet (step opts host e s) /\
             (st_active (step opts host e s) = true -> st_active s = true).
Proof.
  unfold quiet. intros Hq. destruct e as [w|dt| | | | |]; simpl.
  - unfold observer_callback. simpl_st; simpl.
    destruct (st_observer s) eqn:O; [destruct (st_skipFirst s)|]; simpl;
      split; auto; intros Ha; destruct (Hq Ha); split; congruence.
  - destruct (st_timer s) as [d|] eqn:T; [destruct (d <=? st_now s + dt)%nat|];
      unfold handleResize; simpl_st; simpl.
    + destruct (st_active s) eqn:A; simpl.
      * destruct (width_eqb _ _); simpl; split; auto; intros; congruence.
      * split; [intros _; destruct (Hq eq_refl); split; congruence | discriminate].
    + split; auto.
    + split; auto.
  - unfold frame.
    destruct (run_rafs_ctl opts host (st_raf s) (set_raf 0 s))
      as (_ & _ & H3 & H4 & H5 & _).
    rewrite H3, H4, H5. simpl. split; auto.
  - unfold dispose. destruct (st_active s) eqn:A; simpl; simpl_st; simpl;
      split; auto; intros; congruence.
  - unfold revert, dispose. destruct (st_active s) eqn:A; simpl; simpl_st;
      rewrite ?A; simpl; split; auto; intros; congruence.
  - destruct (opt_revertOnComplete opts); try (split; auto; fail).
    destruct (st_active s) eqn:A; [|split; auto; intros; congruence].
    unfold revert, dispose. rewrite A. simpl_st. rewrite A. simpl.
    split; auto; intros; congruence.
  - destruct (opt_revertOnComplete opts); split; auto.
Qed.

Lemma quiet_run opts host es : forall s,
  quiet s -> quiet (run opts host es s) /\
             (st_active (run opts host es s) = true -> st_active s = true).
Proof.
  induction es as [|e es IH]; intros s Hq; simpl; [auto|].
  destruct (quiet_step opts host e s Hq) as [Hq' Ha'].
  destruct (IH _ Hq') as [Hq'' Ha''].
  split; auto.
Qed.

(** Once inactive, no event changes the markup or the label. *)
Lemma inactive_step opts host e s :
  st_active s = false -> quiet s ->
  let s' := step opts host e s in
  st_active s' = false /\ st_content s' = st_content s /\ st_aria s' = st_aria s.
Proof.
  intros A Hq. destruct (Hq A) as [O T]. destruct e as [w|dt| | | | |]; simpl.
  - simpl_st; simpl. rewrite O. simpl. auto.
  - rewrite T. simpl_st; simpl. auto.
  - unfold frame. rewrite run_rafs_inactive by (simpl_st; simpl; exact A).
    simpl_st; simpl. auto.
  - unfold dispose. rewrite A. auto.
  - unfold revert. rewrite A. auto.
  - rewrite A. destruct (opt_revertOnComplete opts); auto.
  - destruct (opt_revertOnComplete opts); simpl_st; simpl; auto.
Qed.

Lemma inactive_run opts host es : forall s,
  st_active s = false -> quiet s ->
  let s' := run opts host es s in
  st_active s' = false /\ st_content s' = st_content s /\ st_aria s' = st_aria s.
Proof.
  induction es as [|e es IH]; intros s A Hq; simpl; [auto|].
  destruct (inactive_step opts host e s A Hq) as (A' & C' & R').
  destruct (IH (step opts host e s) A' (proj1 (quiet_step opts host e s Hq)))
    as (A'' & C'' & R'').
  split; [exact A''|]. split; congruence.
Qed.

(** What [splitText] returns when it returns. *)
Lemma splitText_inr opts host c r s0 :
  splitText opts host c = inr (r, s0) ->
  exists nodes parent,
    c = HTMLElement nodes parent /\ st_original s0 = nodes /\ quiet s0 /\
    st_resplits s0 = O /\
    st_chars s0 = res_chars r /\ st_words s0 = res_words r /\
    st_lines s0 = res_lines r /\
    (res_live r = false -> st_active s0 = false) /\
    (res_live r = true -> st_active s0 = true).
Proof.
  destruct c as [|nodes parent]; simpl; [discriminate|].
  destruct (js_trim (textContent nodes)) as [|x xs].
  - intros H; injection H as <- <-.
    exists nodes, parent. simpl. repeat split; try discriminate; auto.
  - destruct (measure_checked host _ nodes) as [e|mws]; [discriminate|].
    intros H; injection H as <- <-.
    exists nodes, parent. simpl. repeat split; try discriminate; auto.
Qed.

Lemma dispose_quiet s :
  quiet s -> st_active (dispose s) = false /\ quiet (dispose s).
Proof.
  unfold quiet, dispose. intros Hq. destruct (st_active s) eqn:A; simpl.
  - simpl_st; simpl. auto.
  - auto.
Qed.

Lemma revert_of_inactive s : st_active s = false -> revert s = s.
Proof. intros A; unfold revert; rewrite A; reflexivity. Qed.

Lemma dispose_of_inactive s : st_active s = false -> dispose s = s.
Proof. intros A; unfold dispose; rewrite A; reflexivity. Qed.

Lemma dispose_inactive s : st_active (dispose s) = false.
Proof.
  unfold dispose. destruct (st_active s) eqn:A; simpl; [reflexivity | exact A].
Qed.

Lemma revert_inactive s : st_active (revert s) = false.
Proof.
  unfold revert. destruct (st_active s) eqn:A; simpl; [apply dispose_inactive | exact A].
Qed.

Lemma step_original opts host e s :
  st_original (step opts host e s) = st_original s.
Proof.
  destruct e as [w|dt| | | | |]; simpl.
  - unfold observer_callback; simpl_st; simpl.
    destruct (st_observer s), (st_skipFirst s); reflexivity.
  - destruct (st_timer s) as [d|]; [destruct (d <=? st_now s + dt)%nat|];
      unfold handleResize; simpl_st; simpl; [|reflexivity|reflexivity].
    destruct (st_active s); simpl; [destruct (width_eqb _ _)|]; reflexivity.
  - unfold frame. rewrite (proj1 (run_rafs_ctl opts host (st_raf s) (set_raf 0 s))).
    reflexivity.
  - unfold dispose; simpl_st; destruct (st_active s); reflexivity.
  - unfold revert, dispose; simpl_st; destruct (st_active s); reflexivity.
  - destruct (opt_revertOnComplete opts); try reflexivity.
    unfold revert, dispose; simpl_st; destruct (st_active s); reflexivity.
  - destruct (opt_revertOnComplete opts); reflexivity.
Qed.

Lemma run_original opts host es : forall s,
  st_original (run opts host es s) = st_original s.
Proof.
  induction es as [|e es IH]; intros s; simpl; [reflexivity|].
  rewrite IH. apply step_original.
Qed.

Lemma run_rafs_split opts host n : forall s,
  st_active s = true -> (0 < n)%nat ->
  st_content (run_rafs opts host n s) = CSplit (st_lines (run_rafs opts host n s)).
Proof.
  induction n as [|n IH]; intros s A Hn; [lia|].
  simpl. destruct n as [|n].
  - simpl. unfold resplit. rewrite A. reflexivity.
  - apply IH; [|lia].
    rewrite (proj1 (proj2 (proj2 (resplit_ctl opts host s)))). exact A.
Qed.

Lemma live_step opts host e s t : live_inv t s -> live_inv t (step opts host e s).
Proof.
  intros Hs. destruct e as [w|dt| | | | |]; cbn [step].
  - unfold live_inv in *. simpl.
    unfold observer_callback. destruct (st_observer s), (st_skipFirst s); simpl; exact Hs.
  - unfold live_inv in *.
    destruct (st_timer s) as [d|]; [destruct (d <=? st_now s + dt)%nat|]; simpl; [|exact Hs|exact Hs].
    unfold handleResize. simpl. destruct (st_active s) eqn:A; simpl; [|exact Hs].
    destruct (width_eqb _ _); simpl; [exact Hs|].
    intros _. destruct (Hs eq_refl) as [R _]. split; [exact R|]. split; [discriminate|auto].
  - unfold live_inv, frame. intros A.
    destruct (run_rafs_ctl opts host (st_raf s) (set_raf 0 s))
      as (_ & R & A' & _ & _ & _ & _ & _ & _ & F & _).
    rewrite A' in A. simpl in A.
    destruct (Hs A) as (Ra & Z & _). rewrite R, F. simpl.
    split; [exact Ra|]. split; [|lia]. intros _.
    destruct (st_raf s) eqn:E.
    + simpl. apply Z; reflexivity.
    + apply run_rafs_split; [exact A|lia].
  - intros A. rewrite dispose_inactive in A. discriminate.
  - intros A. rewrite revert_inactive in A. discriminate.
  - destruct (opt_revertOnComplete opts); try exact Hs.
    destruct (st_active s); [|exact Hs].
    intros A. rewrite revert_inactive in A. discriminate.
  - unfold live_inv in *. destruct (opt_revertOnComplete opts); simpl; exact Hs.
Qed.

Lemma live_run opts host es : forall s t,
  live_inv t s -> live_inv t (run opts host es s).
Proof.
  induction es as [|e es IH]; intros s t Hs; simpl; [exact Hs|].
  apply IH, live_step, Hs.
Qed.

Lemma active_run opts host es : forall s,
  Forall keeps_active es -> st_active s = true ->
  st_active (run opts host es s) = true.
Proof.
  induction es as [|e es IH]; intros s Hes A; simpl; [exact A|].
  apply Forall_cons_iff in Hes as [[N1 [N2 N3]] Hes]. apply IH; [exact Hes|].
  destruct e as [w|dt| | | | |]; simpl; try congruence.
  - unfold observer_callback. destruct (st_observer s), (st_skipFirst s); exact A.
  - destruct (st_timer s) as [d|]; [destruct (d <=? st_now s + dt)%nat|]; simpl; try exact A.
    unfold handleResize. simpl. rewrite A. simpl.
    destruct (width_eqb _ _); reflexivity.
  - unfold frame. rewrite (proj1 (proj2 (proj2 (run_rafs_ctl opts host (st_raf s) (set_raf 0 s))))).
    exact A.
  - destruct (opt_revertOnComplete opts); exact A.
Qed.

Lemma splitText_text opts host nodes parent r s0 :
  splitText opts host (HTMLElement nodes parent) = inr (r, s0) ->
  js_trim (textContent nodes) <> [] ->
  res_live r = true /\ live_inv (js_trim (textContent nodes)) s0.
Proof.
  simpl. destruct (js_trim (textContent nodes)) as [|x xs]; [intros _ N; congruence|].
  destruct (measure_checked host _ nodes) as [e|mws]; [discriminate|].
  intros H _; injection H as <- <-. split; [reflexivity|].
  intros _. simpl. split; [reflexivity|]. split; [reflexivity|lia].
Qed.

(** C9 (amended): for a container whose trimmed text is not empty,
    [dispose()] called while the split is still active (no [revert()],
    [dispose()] or settled [revertOnComplete] promise before) leaves the
    label set at split time and the container with the current line spans,
    or with the original markup if a resize was in flight (the markup
    restored by [handleResize], its re-split frame not yet run).  No later
    event ([revert()], a resize, a frame, a settled promise) changes the
    markup or the label, and a later [revert()] does nothing. *)
Theorem dispose_freezes (opts : Options) (host : Host)
    (nodes : list (list grapheme)) (parent : option Z)
    (r : SplitResult) (s0 : St) (es1 : list Event)
    (H : splitText opts host (HTMLElement nodes parent) = inr (r, s0))
    (Ht : js_trim (textContent nodes) <> [])
    (Hes : Forall keeps_active es1) :
  let s1 := run opts host es1 s0 in
  let s2 := result_dispose r s1 in
  st_content s2 = (if (0 <? st_raf s1)%nat then COrig nodes else CSplit (st_lines s1)) /\
  st_aria s2 = Some (js_trim (textContent nodes)) /\
  forall es2,
    let s3 := run opts host es2 s2 in
    st_content s3 = st_content s2 /\ st_aria s3 = st_aria s2 /\
    result_revert r s3 = s3.
Proof.
  intros s1 s2.
  destruct (splitText_text opts host nodes parent r s0 H Ht) as [L Hinv0].
  destruct (splitText_inr opts host _ r s0 H)
    as (nodes' & parent' & Hc & Ho & Hq0 & _ & _ & _ & _ & _ & Hlive).
  injection Hc as <- <-.
  assert (A1 : st_active s1 = true) by (apply active_run; [exact Hes | exact (Hlive L)]).
  destruct (live_run opts host es1 s0 _ Hinv0 A1) as (R1 & Z1 & P1).
  assert (O1 : st_original s1 = nodes) by (subst s1; rewrite run_original; exact Ho).
  assert (Hq1 : quiet s1) by exact (proj1 (quiet_run opts host es1 s0 Hq0)).
  assert (E2 : st_content s2 = st_content s1 /\ st_aria s2 = st_aria s1).
  { subst s2. unfold result_dispose, dispose. rewrite L, A1. split; reflexivity. }
  destruct E2 as [C2 R2].
  assert (A2 : st_active s2 = false /\ quiet s2).
  { subst s2. unfold result_dispose. rewrite L. apply dispose_quiet, Hq1. }
  destruct A2 as [A2 Hq2].
  split; [|split].
  - rewrite C2. destruct (0 <? st_raf s1)%nat eqn:E.
    + apply Nat.ltb_lt in E. rewrite <- O1. apply P1, E.
    + apply Nat.ltb_ge in E. apply Z1, Nat.le_0_r, E.
  - rewrite R2. exact R1.
  - intros es2 s3.
    destruct (inactive_run opts host es2 s2 A2 Hq2) as (A3 & C3 & R3).
    split; [exact C3|]. split; [exact R3|].
    unfold result_revert. rewrite L. apply revert_of_inactive, A3.
Qed.

Lemma dispose_freezes_witness :
  exists r s0,
    splitText auto_opts flat_host ab_container = inr (r, s0) /\
    js_trim (textContent [[[97]; [32]; [98]]]) <> [] /\
    Forall keeps_active [EvResize 300; EvResize 350; EvAdvance 200] /\
    let s1 := run auto_opts flat_host [EvResize 300; EvResize 350; EvAdvance 200] s0 in
    let s2 := result_dispose r s1 in
    st_content s2 = (if (0 <? st_raf s1)%nat then COrig [[[97]; [32]; [98]]]
                     else CSplit (st_lines s1)) /\
    st_aria s2 = Some (js_trim (textContent [[[97]; [32]; [98]]])) /\
    forall es2,
      let s3 := run auto_opts flat_host es2 s2 in
      st_content s3 = st_content s2 /\ st_aria s3 = st_aria s2 /\
      result_revert r s3 = s3.
Proof.
  eexists; eexists; split; [reflexivity|].
  assert (Ht : js_trim (textContent [[[97]; [32]; [98]]]) <> []) by (vm_compute; discriminate).
  assert (Hes : Forall keeps_active [EvResize 300; EvResize 350; EvAdvance 200])
    by (repeat constructor; discriminate).
  split; [exact Ht|]. split; [exact Hes|].
  exact (dispose_freezes auto_opts flat_host [[[97]; [32]; [98]]] (Some 300) _ _ _
           eq_refl Ht Hes).
Defined.

(** C9 (counterexample): with [autoSplit], a width change whose debounce
    timer has fired restores the original markup; [dispose()] before the
    re-split frame and a later [revert()] leave the container with the
    original, unsplit markup (and the label). *)
Lemma dispose_freezes_counterexample :
  match splitText auto_opts flat_host ab_container with
  | inr (r, s0) =>
      let s := result_revert r (result_dispose r
                 (run auto_opts flat_host [EvResize 300; EvResize 350; EvAdvance 200] s0)) in
      res_live r = true /\ st_content s = COrig [[[97]; [32]; [98]]] /\
      st_aria s = Some [97; 32; 98]
  | inl _ => False
  end.
Proof. vm_compute. repeat split. Qed.

(** C7: [revert()] of a live result restores the markup snapshot taken by
    [splitText] (never changed afterwards), removes the label, and disposes
    (no observer, no pending timer, inactive); a second [revert()],
    [dispose()] after [revert()] and a repeated [dispose()] change nothing;
    all are total functions, so none raises. *)
Theorem revert_lifecycle (opts : Options) (host : Host)
    (nodes : list (list grapheme)) (parent : option Z) (r : SplitResult) (s0 : St)
    (es : list Event)
    (H : splitText opts host (HTMLElement nodes parent) = inr (r, s0)) :
  let s := run opts host es s0 in
  st_original s = nodes /\
  (st_active s = true ->
     let s' := result_revert r s in
     st_content s' = COrig nodes /\ st_aria s' = None /\ st_active s' = false /\
     st_observer s' = false /\ st_timer s' = None) /\
  result_revert r (result_revert r s) = result_revert r s /\
  result_dispose r (result_revert r s) = result_revert r s /\
  result_dispose r (result_dispose r s) = result_dispose r s.
Proof.
  intros s.
  destruct (splitText_inr opts host _ r s0 H)
    as (nodes' & parent' & Hc & Ho & Hq0 & _ & _ & _ & _ & Hdead & _).
  injection Hc as <- <-.
  assert (Ho' : st_original s = nodes) by (subst s; rewrite run_original; exact Ho).
  split; [exact Ho'|]. split; [|split; [|split]].
  - intros A s'.
    pose proof (proj2 (quiet_run opts host es s0 Hq0) A) as A0.
    assert (L : res_live r = true).
    { destruct (res_live r); [reflexivity|]. rewrite (Hdead eq_refl) in A0; discriminate. }
    subst s'. unfold result_revert, revert, dispose. rewrite L, A. simpl.
    rewrite A. simpl. rewrite Ho'. repeat split.
  - unfold result_revert. destruct (res_live r); [|reflexivity].
    apply revert_of_inactive, revert_inactive.
  - unfold result_revert, result_dispose. destruct (res_live r); [|reflexivity].
    apply dispose_of_inactive, revert_inactive.
  - unfold result_dispose. destruct (res_live r); [|reflexivity].
    apply dispose_of_inactive, dispose_inactive.
Qed.

Lemma revert_lifecycle_witness :
  exists r s0,
    splitText default_options flat_host ab_container = inr (r, s0) /\
    st_original s0 = [[[97]; [32]; [98]]] /\
    (st_active s0 = true ->
       let s' := result_revert r s0 in
       st_content s' = COrig [[[97]; [32]; [98]]] /\ st_aria s' = None /\
       st_active s' = false /\ st_observer s' = false /\ st_timer s' = None) /\
    result_revert r (result_revert r s0) = result_revert r s0 /\
    result_dispose r (result_revert r s0) = result_revert r s0 /\
    result_dispose r (result_dispose r s0) = result_dispose r s0.
Proof.
  eexists; eexists; split; [reflexivity|].
  exact (revert_lifecycle default_options flat_host [[[97]; [32]; [98]]] (Some 300)
           _ _ [] eq_refl).
Defined.

Lemma build_words_snd_cons next wi mw mws :
  snd (build_words next wi (mw :: mws))
  = snd (build_words (next + S (length (mw_chars mw))) (S wi) mws).
Proof.
  simpl. destruct (build_words (next + S (length (mw_chars mw))) (S wi) mws).
  reflexivity.
Qed.

Lemma build_words_snd_ge mws : forall next wi,
  (next <= snd (build_words next wi mws))%nat.
Proof.
  induction mws as [|mw mws IH]; intros next wi; [simpl; lia|].
  rewrite build_words_snd_cons.
  specialize (IH (next + S (length (mw_chars mw)))%nat (S wi)). lia.
Qed.

Lemma build_words_ids_lt mws : forall next wi,
  Forall (fun w => (ws_id w < snd (build_words next wi mws))%nat)
         (fst (build_words next wi mws)).
Proof.
  induction mws as [|mw mws IH]; intros next wi; [constructor|].
  rewrite build_words_fst_cons, build_words_snd_cons. constructor.
  - simpl. pose proof (build_words_snd_ge mws (next + S (length (mw_chars mw))) (S wi)).
    lia.
  - apply IH.
Qed.

Lemma compensate_word_id left w : ws_id (compensate_word left w) = ws_id w.
Proof. unfold compensate_word. destruct (ws_chars w) as [|c [|c' cs]]; reflexivity. Qed.

Lemma performSplit_ids lay next mws :
  let out := performSplit lay next mws in
  Forall (fun w => next <= ws_id w /\ ws_id w < ps_next out)%nat (ps_words out) /\
  (next <= ps_next out)%nat.
Proof.
  unfold performSplit.
  pose proof (build_words_ids_ge mws next 0) as Hge.
  pose proof (build_words_ids_lt mws next 0) as Hlt.
  pose proof (build_words_snd_ge mws next 0) as Hn.
  destruct (build_words next 0 mws) as [built n]; simpl in *.
  split; [|lia].
  rewrite Forall_forall in *. intros w Hw.
  apply in_map_iff in Hw as (w0 & <- & Hw0).
  rewrite compensate_word_id.
  specialize (Hge w0 Hw0); specialize (Hlt w0 Hw0). lia.
Qed.

Lemma splitText_ids opts host c r s0 :
  splitText opts host c = inr (r, s0) ->
  Forall (fun w => (ws_id w < st_next s0)%nat) (res_words r).
Proof.
  destruct c as [|nodes parent]; simpl; [discriminate|].
  destruct (js_trim (textContent nodes)) as [|x xs].
  - intros H; injection H as <- <-. constructor.
  - destruct (measure_checked host _ nodes) as [e|mws]; [discriminate|].
    intros H; injection H as <- <-. simpl.
    destruct (performSplit_ids (host_layout host 0) 0 mws) as [HF _].
    eapply Forall_impl; [|exact HF]. simpl. intros w [_ Hw]; exact Hw.
Qed.

Lemma arrays_inv_same opts r n0 s s' :
  st_chars s' = st_chars s -> st_words s' = st_words s -> st_lines s' = st_lines s ->
  st_next s' = st_next s -> st_resplits s' = st_resplits s ->
  st_resizeCalls s' = st_resizeCalls s ->
  arrays_inv opts r n0 s -> arrays_inv opts r n0 s'.
Proof.
  unfold arrays_inv, last_call. intros E1 E2 E3 E4 E5 E6. rewrite E1, E2, E3, E4, E5, E6.
  auto.
Qed.

Lemma resplit_arrays_inv opts host r n0 s :
  arrays_inv opts r n0 s -> arrays_inv opts r n0 (resplit opts host s).
Proof.
  intros Hinv. unfold resplit.
  destruct (st_active s) eqn:A; simpl; [|exact Hinv].
  destruct Hinv as (_ & _ & Hn).
  set (lay := host_layout host (S (st_resplits s))).
  set (out := performSplit lay (st_next s)
                (measureOriginalText (lay_rect lay) (text_nodes (st_content s)))).
  destruct (performSplit_ids lay (st_next s)
              (measureOriginalText (lay_rect lay) (text_nodes (st_content s))))
    as [HF Hn'].
  fold out in HF, Hn'.
  unfold arrays_inv, last_call. simpl_st; simpl.
  split; [discriminate|]. split; [|lia].
  intros _. split.
  - eapply Forall_impl; [|exact HF]. simpl. intros w [Hw _]. lia.
  - intros O. rewrite O, map_app. simpl. rewrite last_last. reflexivity.
Qed.

Lemma run_rafs_arrays_inv opts host r n0 n : forall s,
  arrays_inv opts r n0 s -> arrays_inv opts r n0 (run_rafs opts host n s).
Proof.
  induction n as [|n IH]; intros s Hinv; simpl; [exact Hinv|].
  apply IH, resplit_arrays_inv, Hinv.
Qed.

Lemma step_arrays_inv opts host r n0 e s :
  arrays_inv opts r n0 s -> arrays_inv opts r n0 (step opts host e s).
Proof.
  intros Hinv.
  assert (Same : forall s', st_chars s' = st_chars s -> st_words s' = st_words s ->
            st_lines s' = st_lines s -> st_next s' = st_next s ->
            st_resplits s' = st_resplits s -> st_resizeCalls s' = st_resizeCalls s ->
            arrays_inv opts r n0 s')
    by (intros s' E1 E2 E3 E4 E5 E6; exact (arrays_inv_same opts r n0 s s' E1 E2 E3 E4 E5 E6 Hinv)).
  destruct e as [w|dt| | | | |]; simpl.
  - unfold observer_callback.
    destruct (st_observer s), (st_skipFirst s); simpl; apply Same; reflexivity.
  - destruct (st_timer s) as [d|]; [destruct (d <=? st_now s + dt)%nat|];
      unfold handleResize; simpl; [|apply Same; reflexivity..].
    destruct (st_active s); simpl; [destruct (width_eqb _ _)|]; apply Same; reflexivity.
  - unfold frame. apply run_rafs_arrays_inv. apply Same; reflexivity.
  - unfold dispose. destruct (st_active s); simpl; apply Same; reflexivity.
  - unfold revert, dispose. destruct (st_active s) eqn:A; simpl; rewrite ?A; simpl;
      apply Same; reflexivity.
  - destruct (opt_revertOnComplete opts); try exact Hinv.
    unfold revert, dispose. destruct (st_active s) eqn:A; simpl; rewrite ?A; simpl;
      apply Same; reflexivity.
  - destruct (opt_revertOnComplete opts); apply Same; reflexivity.
Qed.

Lemma run_arrays_inv opts host r n0 es : forall s,
  arrays_inv opts r n0 s -> arrays_inv opts r n0 (run opts host es s).
Proof.
  induction es as [|e es IH]; intros s Hinv; simpl; [exact Hinv|].
  apply IH, step_arrays_inv, Hinv.
Qed.

(** C2 (amended): the returned object keeps the arrays [splitText]
    built.  Until the first re-split they are also the current ones; a
    re-split only reassigns the closure's [currentChars]/[currentWords]/
    [currentLines] to newly created spans, none of which is a word of the
    returned object, and hands exactly those arrays to [onResize]. *)
Theorem result_arrays_fixed (opts : Options) (host : Host) (c : Container)
    (r : SplitResult) (s0 : St) (es : list Event)
    (H : splitText opts host c = inr (r, s0)) :
  let s := run opts host es s0 in
  (st_resplits s = O ->
     st_chars s = res_chars r /\ st_words s = res_words r /\ st_lines s = res_lines r) /\
  ((0 < st_resplits s)%nat ->
     (forall w1 w2, In w1 (res_words r) -> In w2 (st_words s) -> ws_id w1 <> ws_id w2) /\
     (opt_onResize opts = true -> last_call s = Some (st_chars s, st_words s, st_lines s))).
Proof.
  intros s.
  destruct (splitText_inr opts host c r s0 H)
    as (_ & _ & _ & _ & _ & R0 & C0 & W0 & L0 & _ & _).
  pose proof (splitText_ids opts host c r s0 H) as Hids.
  assert (Hinv : arrays_inv opts r (st_next s0) s).
  { apply run_arrays_inv. unfold arrays_inv. rewrite R0.
    split; [auto|]. split; [lia|lia]. }
  destruct Hinv as (Z0 & P0 & _).
  split; [exact Z0|]. intros Hp. destruct (P0 Hp) as [HF HL].
  split; [|exact HL].
  intros w1 w2 H1 H2 E.
  rewrite Forall_forall in Hids, HF.
  specialize (Hids w1 H1). specialize (HF w2 H2). lia.
Qed.

Lemma result_arrays_fixed_witness :
  exists r s0,
    splitText auto_opts flat_host ab_container = inr (r, s0) /\
    let s := run auto_opts flat_host
               [EvResize 300; EvResize 400; EvAdvance 250; EvFrame] s0 in
    (st_resplits s = O ->
       st_chars s = res_chars r /\ st_words s = res_words r /\ st_lines s = res_lines r) /\
    ((0 < st_resplits s)%nat ->
       (forall w1 w2, In w1 (res_words r) -> In w2 (st_words s) -> ws_id w1 <> ws_id w2) /\
       (opt_onResize auto_opts = true ->
          last_call s = Some (st_chars s, st_words s, st_lines s))).
Proof.
  eexists; eexists; split; [reflexivity|].
  exact (result_arrays_fixed auto_opts flat_host ab_container _ _
           [EvResize 300; EvResize 400; EvAdvance 250; EvFrame] eq_refl).
Defined.

(** C2 (counterexample): with [autoSplit] and a width change, after the
    re-split the returned object still lists the first split's words (ids
    0 and 2) while the current words are new spans (ids 5 and 7). *)
Lemma result_arrays_counterexample :
  match splitText auto_opts flat_host ab_container with
  | inr (r, s0) =>
      let s := run auto_opts flat_host
                 [EvResize 300; EvResize 400; EvAdvance 250; EvFrame] s0 in
      st_resplits s = 1%nat /\ map ws_id (res_words r) = [0; 2]%nat /\
      map ws_id (st_words s) = [5; 7]%nat /\ res_words r <> st_words s
  | inl _ => False
  end.
Proof. vm_compute. repeat split. discriminate. Qed.

Lemma width_eqb_some w x : width_eqb (Some w) x = true -> x = Some w.
Proof.
  destruct x as [y|]; simpl; [|discriminate].
  intros E. apply Z.eqb_eq in E. subst. reflexivity.
Qed.

(** A notification after the first one followed by less than 200 ms:
    the timer is replaced and does not fire. *)
Lemma burst_pair opts host s w dt :
  st_active s = true -> st_observer s = true -> st_skipFirst s = false ->
  (dt < 200)%nat ->
  let s' := run opts host [EvResize w; EvAdvance dt] s in
  st_active s' = true /\ st_observer s' = true /\ st_skipFirst s' = false /\
  st_raf s' = st_raf s /\ st_content s' = st_content s /\
  st_lastWidth s' = st_lastWidth s /\ st_original s' = st_original s /\
  st_resplits s' = st_resplits s.
Proof.
  intros A O F Hdt. simpl. unfold observer_callback; simpl_st; simpl.
  rewrite O, F. simpl.
  assert (Hlt : (st_now s + 200 <=? st_now s + dt)%nat = false)
    by (apply Nat.leb_gt; lia).
  rewrite Hlt. simpl. repeat split; auto.
Qed.

Lemma burst_run opts host ws : forall s,
  st_active s = true -> st_observer s = true -> st_skipFirst s = false ->
  Forall (fun p => (snd p < 200)%nat) ws ->
  let s' := run opts host (burst ws) s in
  st_active s' = true /\ st_observer s' = true /\ st_skipFirst s' = false /\
  st_raf s' = st_raf s /\ st_content s' = st_content s /\
  st_lastWidth s' = st_lastWidth s /\ st_original s' = st_original s /\
  st_resplits s' = st_resplits s.
Proof.
  induction ws as [|[w dt] ws IH]; intros s A O F Hws; simpl; [repeat split; auto|].
  apply Forall_cons_iff in Hws as [Hdt Hws']. simpl in Hdt.
  destruct (burst_pair opts host s w dt A O F Hdt)
    as (A1 & O1 & F1 & R1 & C1 & L1 & G1 & S1).
  simpl in A1, O1, F1, R1, C1, L1, G1, S1.
  destruct (IH _ A1 O1 F1 Hws') as (A2 & O2 & F2 & R2 & C2 & L2 & G2 & S2).
  repeat split; congruence.
Qed.

(** The last notification followed by at least 200 ms: the timer fires
    once and [handleResize] compares the width with [lastWidth]. *)
Lemma burst_last opts host s w dt :
  st_active s = true -> st_observer s = true -> st_skipFirst s = false ->
  (200 <= dt)%nat ->
  let s' := run opts host [EvResize w; EvAdvance dt] s in
  st_timer s' = None /\ st_lastWidth s' = Some w /\
  st_resplits s' = st_resplits s /\
  (if width_eqb (Some w) (st_lastWidth s)
   then st_raf s' = st_raf s /\ st_content s' = st_content s
   else st_raf s' = S (st_raf s) /\ st_content s' = COrig (st_original s)).
Proof.
  intros A O F Hdt. simpl. unfold observer_callback, handleResize; simpl_st; simpl.
  rewrite O, F. simpl.
  assert (Hle : (st_now s + 200 <=? st_now s + dt)%nat = true)
    by (apply Nat.leb_le; lia).
  rewrite Hle, A. simpl.
  destruct (width_eqb (Some w) (st_lastWidth s)) eqn:E; simpl.
  - apply width_eqb_some in E. auto.
  - auto.
Qed.

(** C8 (amended): [splitText] starts with [skipFirst] set, and the first
    notification only clears it.  After that, a burst of notifications,
    each followed by less than 200 ms, then a last one followed by at
    least 200 ms, runs [handleResize] once: the timer is gone, [lastWidth]
    is the last width, and a re-split cycle (original markup restored, one
    animation frame requested) starts exactly when the last width differs
    from [lastWidth] recorded before the burst; the widths in between do
    not matter. *)
Theorem resize_debounce (opts : Options) (host : Host) (s : St)
    (ws : list (Z * nat)) (w : Z) (dt : nat)
    (A : st_active s = true) (O : st_observer s = true)
    (F : st_skipFirst s = false)
    (Hws : Forall (fun p => (snd p < 200)%nat) ws) (Hdt : (200 <= dt)%nat) :
  (forall c r s0, splitText opts host c = inr (r, s0) -> st_skipFirst s0 = true) /\
  (forall s1, st_observer s1 = true -> st_skipFirst s1 = true ->
     step opts host (EvResize w) s1 = set_skipFirst false (set_width w s1)) /\
  let s' := run opts host (burst ws ++ [EvResize w; EvAdvance dt]) s in
  st_timer s' = None /\ st_lastWidth s' = Some w /\
  st_resplits s' = st_resplits s /\
  (if width_eqb (Some w) (st_lastWidth s)
   then st_raf s' = st_raf s /\ st_content s' = st_content s
   else st_raf s' = S (st_raf s) /\ st_content s' = COrig (st_original s)).
Proof.
  split; [|split].
  - intros [|nodes parent] r s0; simpl; [discriminate|].
    destruct (js_trim (textContent nodes)).
    + intros E; injection E as _ <-; reflexivity.
    + destruct (measure_checked host _ nodes); [discriminate|].
      intros E; injection E as _ <-; reflexivity.
  - intros s1 O1 F1. simpl. unfold observer_callback; simpl_st; simpl.
    rewrite O1, F1. reflexivity.
  - cbv zeta. rewrite run_app.
    destruct (burst_run opts host ws s A O F Hws)
      as (A1 & O1 & F1 & R1 & C1 & L1 & G1 & S1).
    destruct (burst_last opts host (run opts host (burst ws) s) w dt A1 O1 F1 Hdt)
      as (T2 & L2 & S2 & H2).
    rewrite L1, R1, C1, G1 in H2. rewrite S1 in S2.
    auto.
Qed.

Lemma resize_debounce_witness :
  exists r s0,
    splitText auto_opts flat_host ab_container = inr (r, s0) /\
    let s := run auto_opts flat_host [EvResize 300] s0 in
    st_active s = true /\ st_observer s = true /\ st_skipFirst s = false /\
    let s' := run auto_opts flat_host
                (burst [(350, 100%nat); (500, 50%nat)] ++ [EvResize 400; EvAdvance 200]) s in
    st_timer s' = None /\ st_lastWidth s' = Some 400 /\
    st_resplits s' = st_resplits s /\
    st_raf s' = S (st_raf s) /\ st_content s' = COrig (st_original s).
Proof.
  eexists; eexists; split; [reflexivity|].
  split; [reflexivity|]. split; [reflexivity|]. split; [reflexivity|].
  destruct (resize_debounce auto_opts flat_host
              (run auto_opts flat_host [EvResize 300]
                 (state_of (splitText auto_opts flat_host ab_container)))
              [(350, 100%nat); (500, 50%nat)] 400 200
              eq_refl eq_refl eq_refl
              ltac:(repeat constructor; simpl; lia) ltac:(lia))
    as (_ & _ & T & L & S & H).
  exact (conj T (conj L (conj S H))).
Defined.

(** C8 (counterexample): right after the skipped first notification the
    width goes 300 -> 350 -> 300 within the debounce window: the 350
    notification was a width change, yet no re-split cycle runs, since the
    width is compared with [lastWidth] only when the timer fires. *)
Lemma resize_debounce_counterexample :
  match splitText auto_opts flat_host ab_container with
  | inr (r, s0) =>
      st_lastWidth s0 = Some 300 /\
      let s := run auto_opts flat_host
                 [EvResize 300; EvResize 350; EvAdvance 100; EvResize 300;
                  EvAdvance 200; EvFrame] s0 in
      st_resplits s = O /\ st_raf s = O /\ st_words s = res_words r
  | inl _ => False
  end.
Proof. vm_compute. repeat split. Qed.

(** C3 (amended): [splitText] throws exactly when the argument is not an
    [HTMLElement], or when its trimmed text is non-empty and
    [Intl.Segmenter] does not exist (there is no fallback); an empty or
    whitespace-only element gets the inert result (empty arrays, [revert]
    and [dispose] doing nothing) and the warning. *)
Theorem split_error_cases (opts : Options) (host : Host) :
  (forall c e,
     splitText opts host c = inl e <->
     (c = NotHTMLElement /\ e = ErrNotHTMLElement) \/
     (exists nodes p, c = HTMLElement nodes p /\
        js_trim (textContent nodes) <> [] /\
        host_segmenter host = false /\ e = ErrNoSegmenter)) /\
  (forall nodes p,
     js_trim (textContent nodes) = [] ->
     let inert := {| res_chars := []; res_words := []; res_lines := [];
                     res_prefersReducedMotion := host_reducedMotion host;
                     res_live := false |} in
     exists s, splitText opts host (HTMLElement nodes p) = inr (inert, s) /\
       st_log s = [WNoText] /\
       forall s', result_revert inert s' = s' /\ result_dispose inert s' = s').
Proof.
  split.
  - intros c e. split.
    + destruct c as [|nodes p]; simpl.
      * intros H; injection H as <-. left; auto.
      * destruct (js_trim (textContent nodes)) as [|x xs] eqn:T; [discriminate|].
        unfold measure_checked. destruct nodes as [|n ns]; [discriminate|].
        destruct (host_segmenter host) eqn:G; [discriminate|].
        intros H; injection H as <-. right.
        exists (n :: ns), p. rewrite T. repeat split; auto; discriminate.
    + intros [[-> ->] | (nodes & p & -> & T & G & ->)]; [reflexivity|].
      simpl. destruct (js_trim (textContent nodes)) as [|x xs] eqn:T'; [contradiction|].
      unfold measure_checked. destruct nodes as [|n ns]; [discriminate|].
      rewrite G. reflexivity.
  - intros nodes p T inert. simpl. rewrite T.
    eexists; split; [reflexivity|]. split; [reflexivity|].
    intros s'; split; reflexivity.
Qed.

(** C3 (counterexample): ["a"] in a host without [Intl.Segmenter]: the
    element is valid, yet [splitText] throws. *)
Lemma split_no_segmenter_counterexample :
  splitText default_options nosegm_host (HTMLElement [[[97]]] None)
  = inl ErrNoSegmenter.
Proof. reflexivity. Qed.

(** C10 (amended): for any [type] other than ["chars,words,lines"],
    [splitText] returns the same result and leaves the same state as with
    the default, apart from the console.  The not-implemented warning is
    logged exactly when it splits; an element with no trimmed text returns
    early with only the no-text warning. *)
Theorem type_ignored (opts : Options) (host : Host) (c : Container) (t : string)
    (Ht : String.eqb t default_type = false) :
  strip_log (splitText (with_type opts (Some t)) host c)
  = strip_log (splitText (with_type opts None) host c) /\
  (forall r s, splitText (with_type opts (Some t)) host c = inr (r, s) ->
     (In (WTypeNotImplemented t) (st_log s) <-> res_live r = true) /\
     (res_live r = false -> st_log s = [WNoText])).
Proof.
  split.
  - destruct c as [|nodes p]; [reflexivity|]. simpl.
    unfold effective_type; simpl. rewrite Ht.
    destruct (js_trim (textContent nodes)); [reflexivity|].
    destruct (measure_checked host _ nodes); reflexivity.
  - destruct c as [|nodes p]; simpl; [discriminate|].
    destruct (js_trim (textContent nodes)).
    + intros r s H; injection H as <- <-. simpl.
      split; [|reflexivity]. split; [intros [E|[]]; discriminate | discriminate].
    + destruct (measure_checked host _ nodes); [discriminate|].
      intros r s H; injection H as <- <-. simpl.
      split; [|discriminate]. split; [reflexivity|intros _].
      unfold effective_type; simpl. rewrite Ht.
      rewrite !in_app_iff. simpl. auto.
Qed.

Lemma type_ignored_witness :
  String.eqb "chars" default_type = false /\
  strip_log (splitText (with_type default_options (Some "chars"%string)) flat_host ab_container)
  = strip_log (splitText (with_type default_options None) flat_host ab_container) /\
  (forall r s,
     splitText (with_type default_options (Some "chars"%string)) flat_host ab_container
       = inr (r, s) ->
     (In (WTypeNotImplemented "chars"%string) (st_log s) <-> res_live r = true) /\
     (res_live r = false -> st_log s = [WNoText])).
Proof.
  split; [reflexivity|].
  exact (type_ignored default_options flat_host ab_container "chars"%string eq_refl).
Defined.

(** C10 (counterexample): a whitespace-only element with [type: "chars"]
    returns early at the no-text check; no type warning is logged. *)
Lemma type_ignored_counterexample :
  match splitText (with_type default_options (Some "chars"%string)) flat_host
          (HTMLElement [[[32]]] None) with
  | inr (r, s) =>
      res_live r = false /\ st_log s = [WNoText] /\
      ~ In (WTypeNotImplemented "chars"%string) (st_log s)
  | inl _ => False
  end.
Proof. vm_compute. split; [reflexivity|]. split; [reflexivity|]. intros [E|[]]; discriminate. Qed.

(** ** Further statements *)

Lemma pushWord_seen s : seen (pushWord s) = seen s.
Proof.
  unfold seen, pushWord. destruct (ms_current s) as [|c cur] eqn:E; [rewrite E; reflexivity|].
  simpl. rewrite flat_map_app. simpl. rewrite !app_nil_r. reflexivity.
Qed.

Lemma measure_step_seen s g l :
  seen (measure_step s g l) = seen s ++ (if is_boundary g then [] else [(g, l)]).
Proof.
  unfold measure_step. destruct (is_boundary g).
  - rewrite pushWord_seen, app_nil_r. reflexivity.
  - destruct (is_break_char g).
    + unfold seen, char_pairs, pushWord. simpl.
      rewrite app_nil_r, flat_map_app, !map_app. simpl. rewrite app_nil_r, map_app, <- app_assoc. reflexivity.
    + unfold seen, char_pairs. simpl. rewrite app_assoc, !map_app. reflexivity.
Qed.

Lemma measure_from_seen rect gs : forall i s,
  seen (measure_from rect i gs s) =
  seen s ++ filter (fun p => negb (is_boundary (fst p)))
                   (combine gs (map rect (seq i (length gs)))).
Proof.
  induction gs as [|g gs IH]; intros i s; simpl.
  - rewrite app_nil_r. reflexivity.
  - rewrite IH, measure_step_seen, <- app_assoc.
    destruct (is_boundary g); reflexivity.
Qed.

Lemma measure_positions (rect : nat -> Q) (nodes : list (list grapheme)) :
  char_pairs (flat_map mw_chars (measureOriginalText rect nodes)) =
  measured_positions rect (concat nodes).
Proof.
  unfold measureOriginalText, measured_positions.
  pose proof (pushWord_seen (measure_from rect 0 (concat nodes) ms_init)) as H.
  rewrite measure_from_seen in H. unfold seen in H at 2. simpl in H.
  unfold seen in H.
  assert (Hc : forall s, ms_current (pushWord s) = []).
  { intros s. unfold pushWord. destruct (ms_current s) eqn:E; [exact E|reflexivity]. }
  rewrite Hc in H. simpl in H. rewrite app_nil_r in H. exact H.
Qed.

Lemma dash_flags_snoc b l w :
  dash_flags b (l ++ [w]) =
  dash_flags b l &&
  Bool.eqb (mw_noSpaceBefore w) (match rev l with [] => b | x :: _ => ends_dash x end).
Proof.
  revert b. induction l as [|x l IH]; intros b; simpl.
  - rewrite andb_true_r. reflexivity.
  - rewrite IH, andb_assoc. destruct (rev l) eqn:E; simpl.
    + destruct l; [reflexivity|]. simpl in E. destruct (rev l); discriminate.
    + reflexivity.
Qed.

Lemma forallb_removelast {A} (f : A -> bool) l :
  forallb f l = true -> forallb f (removelast l) = true.
Proof.
  induction l as [|x l IH]; simpl; [auto|].
  intros H. apply andb_true_iff in H as [H1 H2].
  destruct l; [reflexivity|]. simpl. rewrite H1. apply IH, H2.
Qed.

Lemma forallb_rev {A} (f : A -> bool) l : forallb f (rev l) = forallb f l.
Proof.
  induction l as [|x l IH]; simpl; [reflexivity|].
  rewrite forallb_app, IH. simpl. rewrite andb_true_r, andb_comm. reflexivity.
Qed.

Lemma removelast_snoc {A} (l : list A) x : removelast (l ++ [x]) = l.
Proof. rewrite removelast_app by discriminate. simpl. apply app_nil_r. Qed.

(** Pushing a word whose characters are [rev (c :: cur)]. *)
Lemma push_shape words nsn sl c cur b :
  Forall word_shape_ok words -> dash_flags false (rev words) = true ->
  nsn = match words with [] => false | w :: _ => ends_dash w end ->
  forallb nonbreak cur = true ->
  sl = Some (mc_left (hd c (rev cur))) ->
  is_break_char (mc_char c) = b ->
  mshape {| ms_words := {| mw_chars := rev (c :: cur);
               mw_startLeft := match sl with Some l => l | None => 0%Q end;
               mw_noSpaceBefore := nsn |} :: words;
            ms_current := []; ms_startLeft := None; ms_noSpaceNext := b |}.
Proof.
  intros Hw Hf Hn Hc Hl Hb. subst sl.
  unfold mshape; cbn [ms_words ms_current ms_startLeft ms_noSpaceNext].
  split; [|split; [|split; [|split; [reflexivity|reflexivity]]]].
  - constructor; [|exact Hw]. unfold word_shape_ok. cbn [mw_chars mw_startLeft].
    change (rev (c :: cur)) with (rev cur ++ [c]).
    rewrite (removelast_snoc (rev cur) c), forallb_rev, Hc.
    destruct (rev cur) as [|c0 r]; simpl; split; reflexivity.
  - cbn [rev]. rewrite dash_flags_snoc, Hf, rev_involutive. simpl.
    destruct words; simpl in Hn; rewrite Hn; apply eqb_reflx.
  - unfold ends_dash. cbn [mw_chars]. rewrite rev_involutive. exact (eq_sym Hb).
Qed.

Lemma measure_step_shape s g l : mshape s -> mshape (measure_step s g l).
Proof.
  intros Hs. destruct Hs as (Hw & Hf & Hn & Hc & Hl). unfold measure_step.
  destruct (is_boundary g) eqn:Bd.
  - unfold pushWord. destruct (ms_current s) as [|c cur] eqn:E.
    + repeat split; auto; rewrite E; auto.
    + simpl in Hc. apply andb_true_iff in Hc as [Hc0 Hc].
      apply push_shape; auto.
      * simpl in Hl. destruct (rev cur) eqn:R; simpl; exact Hl.
      * unfold nonbreak in Hc0. destruct (is_break_char (mc_char c)); [discriminate|reflexivity].
  - destruct (is_break_char g) eqn:Br.
    + unfold pushWord; simpl. apply push_shape; auto.
      destruct (rev (ms_current s)) eqn:R; simpl; rewrite Hl; reflexivity.
    + unfold mshape; simpl. repeat split; auto.
      * unfold nonbreak at 1. simpl. rewrite Br. exact Hc.
      * destruct (rev (ms_current s)) as [|c0 r] eqn:R; simpl.
        -- rewrite Hl. reflexivity.
        -- rewrite Hl. reflexivity.
Qed.

Lemma measure_from_shape rect gs : forall i s, mshape s -> mshape (measure_from rect i gs s).
Proof.
  induction gs as [|g gs IH]; intros i s Hs; simpl; [exact Hs|].
  apply IH, measure_step_shape, Hs.
Qed.

Lemma pushWord_shape_words s :
  mshape s ->
  Forall word_shape_ok (ms_words (pushWord s)) /\
  dash_flags false (rev (ms_words (pushWord s))) = true.
Proof.
  intros Hs. pose proof Hs as (Hw & Hf & Hn & Hc & Hl).
  unfold pushWord. destruct (ms_current s) as [|c cur] eqn:E; [auto|].
  simpl in Hc. apply andb_true_iff in Hc as [Hc0 Hc].
  assert (H : mshape {| ms_words := {| mw_chars := rev (c :: cur);
               mw_startLeft := match ms_startLeft s with Some l => l | None => 0%Q end;
               mw_noSpaceBefore := ms_noSpaceNext s |} :: ms_words s;
            ms_current := []; ms_startLeft := None;
            ms_noSpaceNext := is_break_char (mc_char c) |}).
  { apply push_shape; auto. simpl in Hl. destruct (rev cur) eqn:R; simpl; exact Hl. }
  destruct H as (H1 & H2 & _). split; assumption.
Qed.

Lemma ms_init_shape : mshape ms_init.
Proof. repeat split; constructor. Qed.

Lemma measure_shape rect nodes :
  Forall word_shape_ok (measureOriginalText rect nodes) /\
  dash_flags false (measureOriginalText rect nodes) = true.
Proof.
  unfold measureOriginalText.
  destruct (pushWord_shape_words (measure_from rect 0 (concat nodes) ms_init))
    as [H1 H2]; [apply measure_from_shape, ms_init_shape|].
  split; [|exact H2]. rewrite Forall_forall in *. intros x Hx.
  apply H1, in_rev, Hx.
Qed.

(** X2: every word [measureOriginalText] returns has a character, starts at its first character's left, and holds no break character before its last one. *)
Theorem measure_words_shape (rect : nat -> Q) (nodes : list (list grapheme)) :
  Forall word_shape_ok (measureOriginalText rect nodes).
Proof. apply measure_shape. Qed.

(** X3: [measureOriginalText] flags a word [noSpaceBefore] exactly when the word before it ends with a break character; the first word is never flagged. *)
Theorem measure_noSpaceBefore (rect : nat -> Q) (nodes : list (list grapheme)) :
  dash_flags false (measureOriginalText rect nodes) = true.
Proof. apply measure_shape. Qed.

Lemma map_flat_map' {A B C} (f : B -> C) (g : A -> list B) l :
  map f (flat_map g l) = flat_map (fun x => map f (g x)) l.
Proof. induction l as [|x l IH]; simpl; [reflexivity|]. rewrite map_app, IH. reflexivity. Qed.

Lemma compensate_word_text left w :
  map cs_text (ws_chars (compensate_word left w)) = map cs_text (ws_chars w).
Proof.
  rewrite compensate_word_chars. destruct (ws_chars w) as [|c0 [|c1 r]]; [reflexivity|reflexivity|].
  cbn [map]. f_equal. apply (compensate_from_text _ (c1 :: r)).
Qed.

Lemma build_words_text mws : forall next wi,
  flat_map (fun w => map cs_text (ws_chars w)) (fst (build_words next wi mws))
  = map mc_char (flat_map mw_chars mws).
Proof.
  induction mws as [|mw mws IH]; intros next wi; [reflexivity|].
  rewrite build_words_fst_cons. simpl. rewrite map_app, IH, build_chars_text. reflexivity.
Qed.

Lemma performSplit_chars_text lay next mws :
  map cs_text (ps_chars (performSplit lay next mws)) = map mc_char (flat_map mw_chars mws).
Proof.
  unfold performSplit. destruct (build_words next 0 mws) as [built n] eqn:B. simpl.
  rewrite map_flat_map', flat_map_concat_map, map_map.
  rewrite <- (build_words_text mws next 0), B. simpl.
  rewrite flat_map_concat_map. f_equal. apply map_ext. intros w.
  apply compensate_word_text.
Qed.

Lemma build_chars_index nx ci prev mcs :
  map cs_index (build_chars nx ci prev mcs) = seq ci (length mcs).
Proof. revert nx ci prev; induction mcs; intros; simpl; f_equal; auto. Qed.

Lemma compensate_from_index p cs ps :
  map cs_index (compensate_from p cs ps) = map cs_index cs.
Proof.
  revert p ps; induction cs as [|c cs IH]; intros p ps; destruct ps; simpl; auto.
  destruct (cs_expectedGap c); simpl; f_equal; auto.
Qed.

Lemma compensate_word_index left w :
  ws_index (compensate_word left w) = ws_index w /\
  map cs_index (ws_chars (compensate_word left w)) = map cs_index (ws_chars w).
Proof.
  split.
  - unfold compensate_word. destruct (ws_chars w) as [|c0 [|c1 r]]; reflexivity.
  - rewrite compensate_word_chars. destruct (ws_chars w) as [|c0 [|c1 r]]; [reflexivity|reflexivity|].
    cbn [map]. f_equal. apply (compensate_from_index _ (c1 :: r)).
Qed.

Lemma build_words_index mws : forall next wi,
  map ws_index (fst (build_words next wi mws)) = seq wi (length mws) /\
  Forall (fun w => map cs_index (ws_chars w) = seq 0 (length (ws_chars w)))
         (fst (build_words next wi mws)).
Proof.
  induction mws as [|mw mws IH]; intros next wi; [split; [reflexivity|constructor]|].
  rewrite build_words_fst_cons. destruct (IH (next + S (length (mw_chars mw)))%nat (S wi)) as [H1 H2].
  split; simpl; [rewrite H1; reflexivity|].
  constructor; [|exact H2]. unfold build_word; simpl.
  rewrite build_chars_index, build_chars_length. reflexivity.
Qed.

Lemma build_lines_index set gs : forall next li,
  map ls_index (build_lines set next li gs) = seq li (length gs) /\
  length (build_lines set next li gs) = length gs.
Proof.
  induction gs as [|g gs IH]; intros next li; [split; reflexivity|].
  simpl. destruct (IH (S next) (S li)) as [H1 H2]. rewrite H1, H2. split; reflexivity.
Qed.

Lemma group_lines_concat tol top ws : forall groups cur curY,
  concat (group_lines tol top groups cur curY ws) = concat (rev groups) ++ rev cur ++ ws.
Proof.
  induction ws as [|w ws IH]; intros groups cur curY; simpl.
  - destruct cur as [|c cur]; simpl; rewrite ?app_nil_r; [reflexivity|].
    rewrite concat_app. simpl. rewrite app_nil_r. reflexivity.
  - destruct curY as [y|]; [destruct (Qltb _ _)|]; rewrite IH; simpl;
      rewrite ?concat_app; simpl; rewrite <- ?app_assoc, ?app_nil_r; reflexivity.
Qed.

Lemma group_lines_nonempty tol top ws : forall groups cur curY,
  Forall (fun g => g <> []) groups -> (curY <> None -> cur <> []) ->
  Forall (fun g => g <> []) (group_lines tol top groups cur curY ws).
Proof.
  induction ws as [|w ws IH]; intros groups cur curY Hg Hc; simpl.
  - apply Forall_rev. destruct cur as [|c cur]; [exact Hg|].
    constructor; [|exact Hg]. intros E. apply (f_equal (@length _)) in E.
    rewrite length_rev in E. discriminate.
  - destruct curY as [y|]; [destruct (Qltb _ _)|]; apply IH; try discriminate; auto.
    constructor; [|exact Hg]. intros E. apply (f_equal (@length _)) in E.
    rewrite length_rev in E. destruct cur; [|discriminate]. apply (Hc ltac:(discriminate)). reflexivity.
Qed.

Lemma layer_words set ws : flat_map node_words (layer_with_spaces set ws) = ws.
Proof.
  induction ws as [|w [|w' ws] IH]; [reflexivity|reflexivity|].
  change (layer_with_spaces set (w :: w' :: ws)) with
    (NWord w :: (if in_set set w' then [] else [NSpace]) ++ layer_with_spaces set (w' :: ws)).
  cbn [flat_map node_words app]. rewrite flat_map_app, IH.
  destruct (in_set set w'); reflexivity.
Qed.

Lemma build_lines_words set gs : forall next li,
  map line_words (build_lines set next li gs) = gs.
Proof.
  induction gs as [|g gs IH]; intros next li; simpl; [reflexivity|].
  unfold line_words at 1; simpl. rewrite layer_words, IH. reflexivity.
Qed.

Lemma performSplit_lines lay next mws :
  let out := performSplit lay next mws in
  flat_map line_words (ps_lines out) = ps_words out /\
  Forall (fun l => line_words l <> []) (ps_lines out).
Proof.
  unfold performSplit. destruct (build_words next 0 mws) as [built n] eqn:B. simpl.
  unfold detect_lines.
  set (ws := map _ built). set (gs := group_lines _ _ [] [] None ws).
  pose proof (build_lines_words (noSpaceBeforeSet mws built) gs n 0) as H.
  split.
  - rewrite flat_map_concat_map, H. unfold gs. rewrite group_lines_concat. reflexivity.
  - assert (Hn : Forall (fun g => g <> []) gs)
      by (apply group_lines_nonempty; [constructor|intros E; exfalso; apply E; reflexivity]).
    rewrite <- H, Forall_map in Hn. exact Hn.
Qed.

Lemma Forall_repeat_map {A B} (f : A -> B) (b : B) l :
  map f l = repeat b (length l) -> Forall (fun x => f x = b) l.
Proof.
  induction l as [|x l IH]; simpl; intros H; [constructor|].
  injection H as H1 H2. constructor; auto.
Qed.

Lemma compensate_word_gaps left w :
  match ws_chars w with [] => True | c0 :: _ => cs_expectedGap c0 = None end ->
  Forall (fun c => cs_expectedGap c = None) (ws_chars (compensate_word left w)).
Proof.
  intros H0. rewrite compensate_word_chars.
  destruct (ws_chars w) as [|c0 [|c1 r]]; [constructor|repeat constructor; exact H0|].
  constructor; [exact H0|]. apply Forall_repeat_map.
  rewrite compensate_from_gap; [|rewrite length_map, length_seq; lia].
  rewrite compensate_from_length. reflexivity.
Qed.

Lemma round2_bound d : (Qabs d < 20)%Q -> (Qabs (round2 d) <= 20)%Q.
Proof.
  intros Hd. apply Qabs_Qlt_condition in Hd as [Hl Hu].
  unfold round2, math_round.
  pose proof (Qfloor_le (d * 100 + (1 # 2))) as F1.
  pose proof (Qlt_floor (d * 100 + (1 # 2))) as F2.
  set (z := Qfloor (d * 100 + (1 # 2))) in *.
  assert (Zu : (z <= 2000)%Z).
  { assert (inject_Z z < inject_Z 2001)%Q
      by (change (inject_Z 2001) with (2001 # 1)%Q; lra).
    rewrite <- Zlt_Qlt in H. lia. }
  assert (Zl : (-2000 <= z)%Z).
  { assert (inject_Z (-2000) < inject_Z (z + 1))%Q
      by (change (inject_Z (-2000)) with (-2000 # 1)%Q; lra).
    rewrite <- Zlt_Qlt in H. lia. }
  rewrite Zle_Qle in Zu, Zl.
  apply Qabs_Qle_condition. unfold Qdiv. change (/ 100)%Q with (1 # 100)%Q.
  change (inject_Z (-2000)) with (-2000 # 1)%Q in Zl.
  change (inject_Z 2000) with (2000 # 1)%Q in Zu. split; lra.
Qed.

Lemma compensate_from_margins p cs ps :
  Forall margin_ok cs -> Forall margin_ok (compensate_from p cs ps).
Proof.
  revert p ps; induction cs as [|c cs IH]; intros p ps H; [constructor|].
  destruct ps as [|q ps]; [exact H|].
  inversion H as [|? ? Hc Hcs]; subst. cbn [compensate_from].
  constructor; [|apply IH, Hcs].
  destruct (cs_expectedGap c) as [g|]; [|exact Hc].
  unfold margin_ok; cbn [cs_marginLeft].
  destruct (Qltb (Qabs (g - (q - p))) 20) eqn:L; [|exact Hc].
  apply round2_bound. unfold Qltb in L. apply negb_true_iff in L.
  apply Qnot_le_lt. intros Hle. apply Qle_bool_iff in Hle. congruence.
Qed.

Lemma compensate_word_margins left w :
  Forall margin_ok (ws_chars w) -> Forall margin_ok (ws_chars (compensate_word left w)).
Proof.
  intros H. rewrite compensate_word_chars.
  destruct (ws_chars w) as [|c0 [|c1 r]]; [exact H|exact H|].
  inversion H; subst. constructor; [assumption|]. apply compensate_from_margins. assumption.
Qed.

Lemma build_chars_fresh nx ci prev mcs :
  Forall margin_ok (build_chars nx ci prev mcs).
Proof.
  revert nx ci prev; induction mcs; intros; simpl; constructor; [exact I|auto].
Qed.

Lemma build_words_fresh mws : forall next wi,
  Forall (fun w => match ws_chars w with [] => True | c0 :: _ => cs_expectedGap c0 = None end /\
                   Forall margin_ok (ws_chars w))
         (fst (build_words next wi mws)).
Proof.
  induction mws as [|mw mws IH]; intros next wi; [constructor|].
  rewrite build_words_fst_cons. constructor; [|apply IH].
  unfold build_word; simpl. split; [|apply build_chars_fresh].
  destruct (mw_chars mw); reflexivity.
Qed.

Lemma performSplit_unfold lay next mws :
  exists built n,
    build_words next 0 mws = (built, n) /\
    ps_words (performSplit lay next mws) =
      map (fun w => compensate_word (lay_char_left lay (ws_index w)) w) built /\
    ps_chars (performSplit lay next mws) = flat_map ws_chars (ps_words (performSplit lay next mws)).
Proof.
  unfold performSplit. destruct (build_words next 0 mws) as [built n].
  exists built, n. split; [reflexivity|]. split; reflexivity.
Qed.

(** X6: every char span [performSplit] returns has no [expectedGap] left. *)
Theorem performSplit_gaps_cleared (lay : Layout) (next : nat) (mws : list MeasuredWord) :
  Forall (fun c => cs_expectedGap c = None) (ps_chars (performSplit lay next mws)).
Proof.
  destruct (performSplit_unfold lay next mws) as (built & n & B & Hw & Hc).
  rewrite Hc, Hw. pose proof (build_words_fresh mws next 0) as HF. rewrite B in HF.
  simpl in HF. clear B Hw Hc. induction HF as [|w ws [H0 _] _ IH]; simpl; [constructor|].
  apply Forall_app; split; [apply compensate_word_gaps, H0|exact IH].
Qed.

(** X7: every [marginLeft] [performSplit] sets is at most 20 in absolute value. *)
Theorem performSplit_margin_bound (lay : Layout) (next : nat) (mws : list MeasuredWord) :
  Forall margin_ok (ps_chars (performSplit lay next mws)).
Proof.
  destruct (performSplit_unfold lay next mws) as (built & n & B & Hw & Hc).
  rewrite Hc, Hw. pose proof (build_words_fresh mws next 0) as HF. rewrite B in HF.
  simpl in HF. clear B Hw Hc. induction HF as [|w ws [_ H1] _ IH]; simpl; [constructor|].
  apply Forall_app; split; [apply compensate_word_margins, H1|exact IH].
Qed.

(** X5: [performSplit] numbers the words 0, 1, ... in order, the chars of each word 0, 1, ... in order, and the lines 0, 1, ... in order. *)
Theorem performSplit_indices (lay : Layout) (next : nat) (mws : list MeasuredWord) :
  let out := performSplit lay next mws in
  map ws_index (ps_words out) = seq 0 (length mws) /\
  Forall (fun w => map cs_index (ws_chars w) = seq 0 (length (ws_chars w))) (ps_words out) /\
  map ls_index (ps_lines out) = seq 0 (length (ps_lines out)).
Proof.
  cbv zeta. destruct (performSplit_unfold lay next mws) as (built & n & B & Hw & _).
  rewrite Hw. destruct (build_words_index mws next 0) as [H1 H2]. rewrite B in H1, H2.
  simpl in H1, H2. split; [|split].
  - rewrite map_map. rewrite <- H1. apply map_ext. intros w. apply compensate_word_index.
  - rewrite Forall_map. eapply Forall_impl; [|exact H2]. intros w Hw'. cbv beta in *.
    destruct (compensate_word_index (lay_char_left lay (ws_index w)) w) as [_ E].
    rewrite E, Hw'. f_equal.
    rewrite <- (length_map cs_index (ws_chars w)),
      <- (length_map cs_index (ws_chars (compensate_word _ w))), E.
    reflexivity.
  - unfold performSplit. rewrite B. simpl.
    destruct (build_lines_index (noSpaceBeforeSet mws built) (detect_lines (lay_font_size lay)
               (fun w => lay_word_top lay (ws_index w))
               (map (fun w => compensate_word (lay_char_left lay (ws_index w)) w) built)) n 0)
      as [E1 E2].
    rewrite E1, E2. reflexivity.
Qed.

Lemma map_fst_filter_combine {A B} (f : A -> bool) (xs : list A) : forall (ys : list B),
  length ys = length xs ->
  map fst (filter (fun p => f (fst p)) (combine xs ys)) = filter f xs.
Proof.
  induction xs as [|x xs IH]; intros [|y ys] H; simpl in *; try discriminate; auto.
  destruct (f x); simpl; rewrite IH; auto.
Qed.

Lemma split_chars_text lay next rect nodes :
  map cs_text (ps_chars (performSplit lay next (measureOriginalText rect nodes)))
  = filter non_ws (concat nodes).
Proof.
  rewrite performSplit_chars_text.
  assert (E : map mc_char (flat_map mw_chars (measureOriginalText rect nodes))
              = map fst (char_pairs (flat_map mw_chars (measureOriginalText rect nodes))))
    by (unfold char_pairs; rewrite map_map; reflexivity).
  rewrite E, measure_positions. unfold measured_positions.
  apply (map_fst_filter_combine non_ws). rewrite length_map, length_seq. reflexivity.
Qed.

Lemma filter_idem {A} (f : A -> bool) l : filter f (filter f l) = filter f l.
Proof.
  induction l as [|x l IH]; simpl; [reflexivity|].
  destruct (f x) eqn:E; simpl; rewrite ?E, IH; reflexivity.
Qed.

Lemma text_nodes_split lines :
  filter non_ws (concat (text_nodes (CSplit lines)))
  = filter non_ws (map cs_text (flat_map ws_chars (flat_map line_words lines))).
Proof.
  simpl. induction lines as [|l lines IH]; simpl; [reflexivity|].
  rewrite !concat_app, !flat_map_app, !map_app, !filter_app, IH. f_equal.
  unfold line_words. induction (ls_children l) as [|n ns IHn]; simpl; [reflexivity|].
  rewrite concat_app, !flat_map_app, !map_app, !filter_app, IHn. f_equal.
  destruct n as [w|]; simpl; [|reflexivity].
  rewrite ?app_nil_r. clear. induction (ws_chars w) as [|c cs IHc]; simpl; [reflexivity|].
  rewrite IHc. reflexivity.
Qed.

Lemma split_text_inv lay next rect nodes :
  let out := performSplit lay next (measureOriginalText rect nodes) in
  map cs_text (ps_chars out) = filter non_ws (concat nodes) /\
  filter non_ws (concat (text_nodes (CSplit (ps_lines out)))) = filter non_ws (concat nodes).
Proof.
  cbv zeta. split; [apply split_chars_text|].
  rewrite text_nodes_split, (proj1 (performSplit_lines lay next _)).
  destruct (performSplit_unfold lay next (measureOriginalText rect nodes)) as (_ & _ & _ & _ & Hc).
  rewrite <- Hc, split_chars_text. apply filter_idem.
Qed.

Lemma step_keeps opts host e s : e <> EvFrame ->
  let s' := step opts host e s in
  st_chars s' = st_chars s /\ st_words s' = st_words s /\ st_lines s' = st_lines s /\
  st_resplits s' = st_resplits s /\ st_resizeCalls s' = st_resizeCalls s /\
  (st_content s' = st_content s \/ st_content s' = COrig (st_original s)).
Proof.
  intros Hf. destruct e as [w|dt| | | | |]; simpl; [| |congruence| | | |].
  - unfold observer_callback.
    destruct (st_observer s), (st_skipFirst s); simpl; repeat split; auto.
  - destruct (st_timer s) as [d|]; [destruct (d <=? st_now s + dt)%nat|];
      unfold handleResize; simpl; [|repeat split; auto..].
    destruct (st_active s); simpl; [destruct (width_eqb _ _)|]; repeat split; auto.
  - unfold dispose. destruct (st_active s); simpl; repeat split; auto.
  - unfold revert, dispose. destruct (st_active s) eqn:A; simpl; rewrite ?A; simpl;
      repeat split; auto.
  - destruct (opt_revertOnComplete opts); try (repeat split; auto; fail).
    destruct (st_active s) eqn:A; [|repeat split; auto].
    unfold revert, dispose. rewrite A. simpl. rewrite A. simpl. repeat split; auto.
  - destruct (opt_revertOnComplete opts); simpl; repeat split; auto.
Qed.

Lemma Event_eq_frame e : {e = EvFrame} + {e <> EvFrame}.
Proof. destruct e; try (right; discriminate); left; reflexivity. Defined.

Lemma idle_step opts host e s : idle s ->
  let s' := step opts host e s in
  idle s' /\ st_chars s' = st_chars s /\ st_words s' = st_words s /\
  st_lines s' = st_lines s /\ st_resplits s' = st_resplits s /\
  st_resizeCalls s' = st_resizeCalls s.
Proof.
  intros (O & T & R). cbv zeta.
  assert (Hi : idle (step opts host e s)).
  { unfold idle. destruct e as [w|dt| | | | |]; simpl.
    - rewrite O. simpl. auto.
    - rewrite T. simpl. auto.
    - unfold frame. rewrite R. simpl. auto.
    - unfold dispose. destruct (st_active s); simpl; auto.
    - unfold revert, dispose. destruct (st_active s) eqn:A; simpl; rewrite ?A; simpl; auto.
    - destruct (opt_revertOnComplete opts); auto.
      destruct (st_active s) eqn:A; auto.
      unfold revert, dispose. rewrite A. simpl. rewrite A. simpl. auto.
    - destruct (opt_revertOnComplete opts); simpl; auto. }
  split; [exact Hi|].
  destruct (Event_eq_frame e) as [->|Hf].
  - simpl. unfold frame. rewrite R. simpl. repeat split.
  - destruct (step_keeps opts host e s Hf) as (K1 & K2 & K3 & K4 & K5 & _).
    repeat split; assumption.
Qed.

Lemma idle_run opts host es : forall s, idle s ->
  let s' := run opts host es s in
  idle s' /\ st_chars s' = st_chars s /\ st_words s' = st_words s /\
  st_lines s' = st_lines s /\ st_resplits s' = st_resplits s /\
  st_resizeCalls s' = st_resizeCalls s.
Proof.
  induction es as [|e es IH]; intros s Hi; simpl; [repeat split; auto; apply Hi|].
  destruct (idle_step opts host e s Hi) as (Hi' & E1 & E2 & E3 & E4 & E5).
  destruct (IH _ Hi') as (Hi'' & F1 & F2 & F3 & F4 & F5).
  repeat split; try apply Hi''; congruence.
Qed.

(** What [splitText] sets up besides the arrays. *)
Lemma splitText_setup opts host nodes parent r s0 :
  splitText opts host (HTMLElement nodes parent) = inr (r, s0) ->
  st_timer s0 = None /\ st_raf s0 = 0%nat /\ st_resizeCalls s0 = [] /\
  st_resplits s0 = 0%nat /\
  st_chars s0 = res_chars r /\ st_words s0 = res_words r /\ st_lines s0 = res_lines r /\
  st_observer s0 = res_live r && opt_autoSplit opts && has_parent parent.
Proof.
  simpl. destruct (js_trim (textContent nodes)) as [|x xs].
  - intros H; injection H as <- <-. repeat split.
  - destruct (measure_checked host _ nodes) as [e|mws]; [discriminate|].
    intros H; injection H as <- <-. repeat split.
Qed.

(** X9: with [autoSplit] off, no event re-splits the text, calls [onResize], or changes the chars, words and lines [splitText] returned. *)
Theorem no_autoSplit_static (opts : Options) (host : Host) (c : Container)
    (r : SplitResult) (s0 : St) (es : list Event)
    (H : splitText opts host c = inr (r, s0))
    (Ha : opt_autoSplit opts = false) :
  let s := run opts host es s0 in
  st_resplits s = 0%nat /\ st_resizeCalls s = [] /\
  st_chars s = res_chars r /\ st_words s = res_words r /\ st_lines s = res_lines r.
Proof.
  destruct c as [|nodes parent]; [discriminate|].
  destruct (splitText_setup opts host nodes parent r s0 H)
    as (T & R & C & P & E1 & E2 & E3 & O).
  rewrite Ha, andb_false_r, andb_false_l in O.
  destruct (idle_run opts host es s0 (conj O (conj T R))) as (_ & F1 & F2 & F3 & F4 & F5).
  cbv zeta. repeat split; congruence.
Qed.

(** X10: with [autoSplit] on, no parent and a non-empty trimmed text, [splitText] warns twice, and no event re-splits the text or changes the chars, words and lines it returned. *)
Theorem autoSplit_without_parent (opts : Options) (host : Host)
    (nodes : list (list grapheme)) (r : SplitResult) (s0 : St) (es : list Event)
    (H : splitText opts host (HTMLElement nodes None) = inr (r, s0))
    (Ha : opt_autoSplit opts = true) (Ht : js_trim (textContent nodes) <> []) :
  In WAutoSplitNeedsParent (st_log s0) /\ In WAutoSplitNoParentFound (st_log s0) /\
  let s := run opts host es s0 in
  st_resplits s = 0%nat /\ st_resizeCalls s = [] /\
  st_chars s = res_chars r /\ st_words s = res_words r /\ st_lines s = res_lines r.
Proof.
  destruct (splitText_text opts host nodes None r s0 H Ht) as [Hl _].
  destruct (splitText_setup opts host nodes None r s0 H)
    as (T & R & C & P & E1 & E2 & E3 & O).
  rewrite andb_false_r in O.
  destruct (idle_run opts host es s0 (conj O (conj T R))) as (_ & F1 & F2 & F3 & F4 & F5).
  split; [|split; [|cbv zeta; repeat split; congruence]].
  - revert H. simpl. destruct (js_trim (textContent nodes)) as [|x xs].
    + intros H; injection H as <- <-. discriminate.
    + destruct (measure_checked host _ nodes) as [e|mws]; [discriminate|].
      intros H; injection H as <- <-. simpl. rewrite Ha. simpl. auto.
  - revert H. simpl. destruct (js_trim (textContent nodes)) as [|x xs].
    + intros H; injection H as <- <-. discriminate.
    + destruct (measure_checked host _ nodes) as [e|mws]; [discriminate|].
      intros H; injection H as <- <-. simpl. rewrite Ha. simpl.
      rewrite !in_app_iff. simpl. auto.
Qed.

Lemma resplit_text opts host s : text_inv s -> text_inv (resplit opts host s).
Proof.
  intros [H1 H2]. unfold resplit. destruct (negb (st_active s)); [split; assumption|].
  unfold text_inv; cbn [st_chars st_content st_original set_resizeCalls set_resplits
    set_next set_lines set_words set_chars set_content].
  destruct (split_text_inv (host_layout host (S (st_resplits s))) (st_next s)
              (lay_rect (host_layout host (S (st_resplits s)))) (text_nodes (st_content s)))
    as [G1 G2].
  rewrite G1, G2, H2. split; reflexivity.
Qed.

Lemma run_rafs_text opts host n : forall s,
  text_inv s -> text_inv (run_rafs opts host n s).
Proof.
  induction n as [|n IH]; intros s Hc; simpl; [exact Hc|]. apply IH, resplit_text, Hc.
Qed.

Lemma text_run opts host es : forall s,
  text_inv s -> text_inv (run opts host es s).
Proof.
  induction es as [|e es IH]; intros s Hc; simpl; [exact Hc|]. apply IH.
  destruct (Event_eq_frame e) as [->|Hf].
  - simpl. unfold frame. apply run_rafs_text. exact Hc.
  - destruct (step_keeps opts host e s Hf) as (K1 & _ & _ & _ & _ & K6).
    destruct Hc as [H1 H2]. unfold text_inv. rewrite K1, step_original.
    split; [exact H1|]. destruct K6 as [K6|K6]; rewrite K6; [exact H2|reflexivity].
Qed.

(** X12: for an element whose trimmed text is not empty, the chars [splitText] returns spell the text without its spaces, newlines and tabs, and the current chars still do after any events. *)
Theorem chars_text_invariant (opts : Options) (host : Host)
    (nodes : list (list grapheme)) (parent : option Z)
    (r : SplitResult) (s0 : St) (es : list Event)
    (H : splitText opts host (HTMLElement nodes parent) = inr (r, s0))
    (Ht : js_trim (textContent nodes) <> []) :
  map cs_text (res_chars r) = filter non_ws (concat nodes) /\
  map cs_text (st_chars (run opts host es s0)) = filter non_ws (concat nodes).
Proof.
  destruct (splitText_text opts host nodes parent r s0 H Ht) as [Hl _].
  assert (Hi : text_inv s0 /\ st_original s0 = nodes /\ st_chars s0 = res_chars r).
  { revert H. simpl. destruct (js_trim (textContent nodes)) as [|x xs] eqn:Et.
    - intros H; injection H as <- <-. discriminate.
    - destruct nodes as [|n0 ns]; simpl.
      + discriminate Et.
      + destruct (host_segmenter host); [|discriminate].
        intros H; injection H as <- <-. unfold text_inv; simpl.
        destruct (split_text_inv (host_layout host 0) 0 (lay_rect (host_layout host 0)) (n0 :: ns))
          as [G1 G2].
        repeat split; assumption. }
  destruct Hi as (Hi & Ho & Hc).
  destruct (text_run opts host es s0 Hi) as [G _].
  rewrite run_original, Ho in G. rewrite <- Hc. split; [|exact G].
  destruct Hi as [G1 _]. rewrite Ho in G1. exact G1.
Qed.

Lemma layer_head set w ws : exists rest, layer_with_spaces set (w :: ws) = NWord w :: rest.
Proof. destruct ws; eexists; reflexivity. Qed.

Lemma layer_spaced set ws : ws <> [] -> spaced (layer_with_spaces set ws) = true.
Proof.
  induction ws as [|w [|w' ws] IH]; intros Hne; [congruence|reflexivity|].
  change (layer_with_spaces set (w :: w' :: ws)) with
    (NWord w :: (if in_set set w' then [] else [NSpace]) ++ layer_with_spaces set (w' :: ws)).
  destruct (layer_head set w' ws) as [rest E].
  specialize (IH ltac:(discriminate)). rewrite E in IH |- *.
  destruct (in_set set w'); exact IH.
Qed.

(** X8: every line span [performSplit] returns starts and ends with a word span and holds at most one space node between two word spans. *)
Theorem performSplit_line_spacing (lay : Layout) (next : nat) (mws : list MeasuredWord) :
  Forall (fun l => spaced (ls_children l) = true) (ps_lines (performSplit lay next mws)).
Proof.
  pose proof (proj2 (performSplit_lines lay next mws)) as Hn. simpl in Hn.
  unfold performSplit in *. destruct (build_words next 0 mws) as [built n]. simpl in *.
  revert Hn. generalize (detect_lines (lay_font_size lay) (fun w => lay_word_top lay (ws_index w))
             (map (fun w => compensate_word (lay_char_left lay (ws_index w)) w) built)).
  generalize n 0%nat. intros n0 li gs. revert n0 li.
  induction gs as [|g gs IH]; intros n0 li Hn; simpl in *; [constructor|].
  inversion Hn as [|? ? H0 H1]; subst. constructor; [|apply (IH _ _ H1)].
  simpl. apply layer_spaced. intros ->. apply H0. reflexivity.
Qed.

Lemma aria_step opts host e s t : quiet s -> aria_inv t s -> aria_inv t (step opts host e s).
Proof.
  intros Hq Ha. unfold aria_inv in *. intros A'.
  destruct (quiet_step opts host e s Hq) as [_ Hact]. specialize (Ha (Hact A')).
  clear Hq Hact. revert A'.
  destruct e as [w|dt| | | | |]; simpl.
  - unfold observer_callback. destruct (st_observer s), (st_skipFirst s); simpl; auto.
  - destruct (st_timer s) as [d|]; [destruct (d <=? st_now s + dt)%nat|];
      unfold handleResize; simpl; auto.
    destruct (st_active s); simpl; [destruct (width_eqb _ _)|]; auto.
  - unfold frame. rewrite (proj1 (proj2 (run_rafs_ctl opts host (st_raf s) (set_raf 0 s)))).
    simpl. auto.
  - unfold dispose. destruct (st_active s); simpl; auto.
  - intros A'. rewrite revert_inactive in A'. discriminate.
  - destruct (opt_revertOnComplete opts); auto.
    destruct (st_active s); auto. intros A'. rewrite revert_inactive in A'. discriminate.
  - destruct (opt_revertOnComplete opts); simpl; auto.
Qed.

(** X13: while the split is active, the container's aria-label is the trimmed original text content. *)
Theorem aria_label_while_active (opts : Options) (host : Host)
    (nodes : list (list grapheme)) (parent : option Z)
    (r : SplitResult) (s0 : St) (es : list Event)
    (H : splitText opts host (HTMLElement nodes parent) = inr (r, s0)) :
  let s := run opts host es s0 in
  st_active s = true -> st_aria s = Some (js_trim (textContent nodes)).
Proof.
  destruct (splitText_inr opts host _ r s0 H) as (n' & p' & Ec & _ & Hq & _).
  assert (Hi : aria_inv (js_trim (textContent nodes)) s0).
  { revert H. simpl. destruct (js_trim (textContent nodes)) as [|x xs].
    - intros H; injection H as <- <-. discriminate.
    - destruct (measure_checked host _ nodes) as [e|mws]; [discriminate|].
      intros H; injection H as <- <-. intros _. reflexivity. }
  cbv zeta. clear H Ec. revert s0 Hq Hi. induction es as [|e es IH]; intros s0 Hq Hi; simpl; [exact Hi|].
  apply IH; [apply quiet_step, Hq|apply aria_step; assumption].
Qed.

Lemma frame_raf opts host s : st_raf (frame opts host s) = 0%nat.
Proof.
  unfold frame.
  destruct (run_rafs_ctl opts host (st_raf s) (set_raf 0 s))
    as (_ & _ & _ & _ & _ & _ & _ & _ & _ & R & _).
  rewrite R. reflexivity.
Qed.

Lemma pending_step opts host e s : pending_inv s -> pending_inv (step opts host e s).
Proof.
  unfold pending_inv. intros Hp. rewrite step_original.
  destruct e as [w|dt| | | | |]; simpl.
  - unfold observer_callback. destruct (st_observer s), (st_skipFirst s); simpl; auto.
  - destruct (st_timer s) as [d|]; [destruct (d <=? st_now s + dt)%nat|];
      unfold handleResize; simpl; auto.
    destruct (st_active s); simpl; [destruct (width_eqb _ _)|]; simpl; auto.
  - rewrite frame_raf. lia.
  - unfold dispose. destruct (st_active s); simpl; auto.
  - unfold revert, dispose. destruct (st_active s) eqn:A; simpl; rewrite ?A; simpl; auto.
  - destruct (opt_revertOnComplete opts); auto.
    destruct (st_active s) eqn:A; auto.
    unfold revert, dispose. rewrite A. simpl. rewrite A. simpl. auto.
  - destruct (opt_revertOnComplete opts); simpl; auto.
Qed.

(** X14: between a handled resize and the next frame the container shows the
    original markup. *)
Theorem pending_resplit_shows_original (opts : Options) (host : Host) (c : Container)
    (r : SplitResult) (s0 : St) (es : list Event)
    (H : splitText opts host c = inr (r, s0)) :
  let s := run opts host es s0 in
  (0 < st_raf s)%nat -> st_content s = COrig (st_original s0).
Proof.
  destruct c as [|nodes parent]; [discriminate|].
  destruct (splitText_setup opts host nodes parent r s0 H) as (_ & R & _).
  cbv zeta. rewrite <- (run_original opts host es s0).
  assert (Hp : pending_inv s0) by (unfold pending_inv; rewrite R; lia).
  clear H R. revert s0 Hp. induction es as [|e es IH]; intros s0 Hp; simpl; [exact Hp|].
  apply IH, pending_step, Hp.
Qed.

(** X1: the measured characters are the graphemes of the text other than space, newline and tab, in order, each with the left of the range at its index. *)
Theorem measure_chars_positions (rect : nat -> Q) (nodes : list (list grapheme)) :
  char_pairs (flat_map mw_chars (measureOriginalText rect nodes)) =
  measured_positions rect (concat nodes).
Proof. apply measure_positions. Qed.

(** X4: the line spans [performSplit] returns hold its word spans in order, each exactly once, and no line span is empty. *)
Theorem performSplit_lines_partition (lay : Layout) (next : nat) (mws : list MeasuredWord) :
  let out := performSplit lay next mws in
  flat_map line_words (ps_lines out) = ps_words out /\
  Forall (fun l => line_words l <> []) (ps_lines out).
Proof. apply performSplit_lines. Qed.

Lemma no_autoSplit_static_witness :
  exists r s0,
    splitText default_options flat_host ab_container = inr (r, s0) /\
    opt_autoSplit default_options = false /\
    let s := run default_options flat_host [EvResize 400; EvAdvance 250; EvFrame] s0 in
    st_resplits s = 0%nat /\ st_resizeCalls s = [] /\
    st_chars s = res_chars r /\ st_words s = res_words r /\ st_lines s = res_lines r.
Proof.
  eexists; eexists; split; [reflexivity|]. split; [reflexivity|].
  exact (no_autoSplit_static default_options flat_host ab_container _ _
           [EvResize 400; EvAdvance 250; EvFrame] eq_refl eq_refl).
Defined.

Lemma autoSplit_without_parent_witness :
  exists r s0,
    splitText auto_opts flat_host (HTMLElement [[[97]; [32]; [98]]] None) = inr (r, s0) /\
    js_trim (textContent [[[97]; [32]; [98]]]) <> [] /\
    In WAutoSplitNeedsParent (st_log s0) /\ In WAutoSplitNoParentFound (st_log s0) /\
    let s := run auto_opts flat_host [EvResize 300; EvResize 400; EvAdvance 250; EvFrame] s0 in
    st_resplits s = 0%nat /\ st_resizeCalls s = [] /\
    st_chars s = res_chars r /\ st_words s = res_words r /\ st_lines s = res_lines r.
Proof.
  eexists; eexists; split; [reflexivity|].
  assert (Ht : js_trim (textContent [[[97]; [32]; [98]]]) <> []) by (vm_compute; discriminate).
  split; [exact Ht|].
  exact (autoSplit_without_parent auto_opts flat_host [[[97]; [32]; [98]]] _ _
           [EvResize 300; EvResize 400; EvAdvance 250; EvFrame] eq_refl eq_refl Ht).
Defined.

Lemma chars_text_invariant_witness :
  exists r s0,
    splitText auto_opts flat_host ab_container = inr (r, s0) /\
    js_trim (textContent [[[97]; [32]; [98]]]) <> [] /\
    map cs_text (res_chars r) = filter non_ws (concat [[[97]; [32]; [98]]]) /\
    map cs_text (st_chars (run auto_opts flat_host
                             [EvResize 300; EvResize 400; EvAdvance 250; EvFrame] s0))
    = filter non_ws (concat [[[97]; [32]; [98]]]).
Proof.
  eexists; eexists; split; [reflexivity|].
  assert (Ht : js_trim (textContent [[[97]; [32]; [98]]]) <> []) by (vm_compute; discriminate).
  split; [exact Ht|].
  exact (chars_text_invariant auto_opts flat_host [[[97]; [32]; [98]]] (Some 300) _ _
           [EvResize 300; EvResize 400; EvAdvance 250; EvFrame] eq_refl Ht).
Defined.

Lemma aria_label_while_active_witness :
  exists r s0,
    splitText auto_opts flat_host ab_container = inr (r, s0) /\
    let s := run auto_opts flat_host [EvResize 300; EvResize 400; EvAdvance 250; EvFrame] s0 in
    st_active s = true /\ st_aria s = Some (js_trim (textContent [[[97]; [32]; [98]]])).
Proof.
  eexists; eexists; split; [reflexivity|]. split; [reflexivity|].
  apply (aria_label_while_active auto_opts flat_host [[[97]; [32]; [98]]] (Some 300) _ _
           [EvResize 300; EvResize 400; EvAdvance 250; EvFrame] eq_refl).
  reflexivity.
Defined.

Lemma pending_resplit_shows_original_witness :
  exists r s0,
    splitText auto_opts flat_host ab_container = inr (r, s0) /\
    let s := run auto_opts flat_host [EvResize 300; EvResize 400; EvAdvance 250] s0 in
    (0 < st_raf s)%nat /\ st_content s = COrig (st_original s0).
Proof.
  eexists; eexists; split; [reflexivity|]. split; [apply Nat.ltb_lt; reflexivity|].
  apply (pending_resplit_shows_original auto_opts flat_host ab_container _ _
           [EvResize 300; EvResize 400; EvAdvance 250] eq_refl).
  apply Nat.ltb_lt; reflexivity.
Defined.
